(** * Tiered file search of the Radar File Chatbot

    A shallow embedding of the search engine of [radar_chatbot.py]
    (tokenizer, directory scan, tiered content matcher, snippet extractor,
    result aggregator and renderer) and of the plain all-keywords search of
    [safe_chatbot.py], followed by the properties of the specification.

    Conventions of the embedding.
    - A Python [str] is a [string]; its characters are the 8-bit [ascii]
      characters, with the character classes and the case mapping of the
      ASCII range (codes above 127 are carried through unchanged and are
      neither word characters nor white space). On ASCII text these are
      the classes and the mapping of Python; outside it [str.lower] may
      change the length of a string and [\w] accepts further letters, so
      a property that depends on either is stated for text that
      [isascii] accepts.
    - A Python [int] is a [Z]; [len] is [Z.of_nat] of a length.
    - The dictionary [word_positions] is a [gmap string (list Z)].
    - A call that may raise returns an [option]; [None] is the exception. *)

From Stdlib Require Import ZArith Lia Ascii String DecimalString.
From Stdlib Require Import Sorting.Sorted Sorting.Permutation.
From stdpp Require Import base gmap strings list.

Local Open Scope Z_scope.

(** String concatenation computes on a constructor, as list append does. *)
#[local] Arguments String.append !_ _ / : simpl nomatch.

(** ** Python string primitives *)

Module Py.

Definition code (c : ascii) : Z := Z.of_N (N_of_ascii c).

(** [str.isspace] on one character: TAB..CR, FS..US and the blank. *)
Definition isspace (c : ascii) : bool :=
  let n := code c in
  ((9 <=? n) && (n <=? 13)) || ((28 <=? n) && (n <=? 32)).

(** The class [\w] on the ASCII range: digits, letters and the
    underscore. *)
Definition isword (c : ascii) : bool :=
  let n := code c in
  ((48 <=? n) && (n <=? 57)) || ((65 <=? n) && (n <=? 90))
  || (n =? 95) || ((97 <=? n) && (n <=? 122)).

Definition lower_char (c : ascii) : ascii :=
  let n := code c in
  if (65 <=? n) && (n <=? 90) then ascii_of_N (Z.to_N (n + 32)) else c.

(** [s.lower()] on the ASCII range, where it maps character by
    character. *)
Fixpoint lower (s : string) : string :=
  match s with
  | EmptyString => EmptyString
  | String c s' => String (lower_char c) (lower s')
  end.

(** [s.isascii()] *)
Fixpoint isascii (s : string) : bool :=
  match s with
  | EmptyString => true
  | String c s' => (code c <? 128) && isascii s'
  end.

(** [len(s)] *)
Definition len (s : string) : Z := Z.of_nat (String.length s).

Definition is_empty (s : string) : bool :=
  match s with EmptyString => true | _ => false end.

(** [s.startswith(p)] *)
Fixpoint startswith (p s : string) : bool :=
  match p, s with
  | EmptyString, _ => true
  | String _ _, EmptyString => false
  | String a p', String b s' => Ascii.eqb a b && startswith p' s'
  end.

(** [sub in s] *)
Fixpoint contains (sub s : string) : bool :=
  startswith sub s ||
  match s with
  | EmptyString => false
  | String _ s' => contains sub s'
  end.

(** [s.endswith(p)] *)
Fixpoint endswith (p s : string) : bool :=
  String.eqb p s ||
  match s with
  | EmptyString => false
  | String _ s' => endswith p s'
  end.

(** [s.count(sub)]: occurrences are counted from the left and the scan
    resumes after the end of each one, so they never overlap; the empty
    [sub] occurs once between every two characters and at both ends. *)
Fixpoint count_from (sub : string) (skip : nat) (s : string) : Z :=
  match s with
  | EmptyString =>
      match skip with
      | O => if is_empty sub then 1 else 0
      | S _ => 0
      end
  | String _ s' =>
      match skip with
      | S k => count_from sub k s'
      | O => if startswith sub s
             then 1 + count_from sub (String.length sub - 1) s'
             else count_from sub 0 s'
      end
  end.

Definition count (s sub : string) : Z := count_from sub 0 s.

(** [s.find(sub)], [-1] when there is no occurrence. *)
Fixpoint find_from (sub : string) (i : Z) (s : string) : Z :=
  if startswith sub s then i
  else match s with
       | EmptyString => -1
       | String _ s' => find_from sub (i + 1) s'
       end.

Definition find (s sub : string) : Z := find_from sub 0 s.

Fixpoint lstrip (s : string) : string :=
  match s with
  | EmptyString => EmptyString
  | String c s' => if isspace c then lstrip s' else s
  end.

Fixpoint rstrip (s : string) : string :=
  match s with
  | EmptyString => EmptyString
  | String c s' =>
      let r := rstrip s' in
      if isspace c && is_empty r then EmptyString else String c r
  end.

(** [s.strip()] *)
Definition strip (s : string) : string := rstrip (lstrip s).

Definition snoc (s : string) (c : ascii) : string :=
  s +:+ String c EmptyString.

(** The pieces of [s] between the characters of class [sep], a run of
    separators counting as one; [cur] is the piece being read. Pieces
    are never empty. *)
Fixpoint pieces (sep : ascii -> bool) (cur s : string) : list string :=
  match s with
  | EmptyString => if is_empty cur then [] else [cur]
  | String c s' =>
      if sep c
      then (if is_empty cur then pieces sep EmptyString s'
            else cur :: pieces sep EmptyString s')
      else pieces sep (snoc cur c) s'
  end.

(** [s.split()]: the maximal runs of characters that are not white space. *)
Definition split (s : string) : list string := pieces isspace EmptyString s.

(** [re.findall(r'\b\w+\b', s)]: a match starts at a word boundary, takes
    word characters greedily and must end at a word boundary, so the
    matches are the maximal runs of word characters, left to right. *)
Definition findall_words (s : string) : list string :=
  pieces (fun c => negb (isword c)) EmptyString s.

(** [re.sub(r'[^\w]', '', s)] *)
Fixpoint sub_nonword (s : string) : string :=
  match s with
  | EmptyString => EmptyString
  | String c s' => if isword c then String c (sub_nonword s') else sub_nonword s'
  end.

(** [re.split(r'[...]+', s)] for a character class [sep]: unlike
    [str.split] the empty pieces before a leading and after a trailing
    run of separators are kept. [insep] tells that the previous character
    was a separator. *)
Fixpoint re_split_from (sep : ascii -> bool) (cur : string) (insep : bool)
    (s : string) : list string :=
  match s with
  | EmptyString => [cur]
  | String c s' =>
      if sep c
      then (if insep then re_split_from sep cur true s'
            else cur :: re_split_from sep EmptyString true s')
      else re_split_from sep (snoc cur c) false s'
  end.

Definition re_split (sep : ascii -> bool) (s : string) : list string :=
  re_split_from sep EmptyString false s.

(** [sep.join(l)] *)
Fixpoint join (sep : string) (l : list string) : string :=
  match l with
  | [] => EmptyString
  | [x] => x
  | x :: l' => x +:+ sep +:+ join sep l'
  end.

(** [''.join(l)] *)
Fixpoint concat (l : list string) : string :=
  match l with
  | [] => EmptyString
  | x :: l' => x +:+ concat l'
  end.

Fixpoint take (n : nat) (s : string) : string :=
  match n, s with
  | S k, String c s' => String c (take k s')
  | _, _ => EmptyString
  end.

Fixpoint drop (n : nat) (s : string) : string :=
  match n, s with
  | S k, String _ s' => drop k s'
  | _, _ => s
  end.

(** A slice bound as Python normalises it: negative bounds count from the
    end, and the result is clipped to [0, len s]. *)
Definition clip (s : string) (i : Z) : Z :=
  if i <? 0 then Z.max 0 (i + len s) else Z.min i (len s).

(** [s[i:j]] *)
Definition slice (s : string) (i j : Z) : string :=
  let a := clip s i in
  let b := clip s j in
  take (Z.to_nat (b - a)) (drop (Z.to_nat a) s).

(** [s[:j]] *)
Definition slice_to (s : string) (j : Z) : string := slice s 0 j.

(** [str(n)] and [f"{n}"] for an integer. *)
Definition str (n : Z) : string := NilZero.string_of_int (Z.to_int n).

(** [c * n] for a one-character string. *)
Fixpoint rep (c : ascii) (n : nat) : string :=
  match n with
  | O => EmptyString
  | S k => String c (rep c k)
  end.

(** [f"{num/den:.1f}"] for integers [0 <= num] and [0 < den] whose
    quotient is an exact binary fraction (here [den] is a power of two):
    the quotient rounded to one decimal, a tie going to the even digit. *)
Definition fmt_1f (num den : Z) : string :=
  let t := 10 * num in
  let q := t / den in
  let r := t mod den in
  let up := (den <? 2 * r) || ((2 * r =? den) && Z.odd q) in
  let v := if up then q + 1 else q in
  str (v / 10) +:+ "." +:+ str (v mod 10).

End Py.

(** ** The tiered search of [radar_chatbot.py] *)

Module Radar.

Import Py.

Definition NL : string := String "010"%char EmptyString.

(** The limits set by [setup_variables]. *)
Record config : Type := Config {
  MAX_FILE_SIZE : Z;
  MAX_SNIPPET_LENGTH : Z;
  MAX_RESULTS_DISPLAY : Z;
  MAX_TOTAL_RESPONSE_LENGTH : Z;
  MAX_FILES_TO_SEARCH : Z
}.

Definition default_config : config :=
  {| MAX_FILE_SIZE := 10 * 1024 * 1024;
     MAX_SNIPPET_LENGTH := 200;
     MAX_RESULTS_DISPLAY := 8;
     MAX_TOTAL_RESPONSE_LENGTH := 50000;
     MAX_FILES_TO_SEARCH := 10000 |}.

(** One entry of a bucket: the dictionary built for a matching file. *)
Record result : Type := Result {
  path : string;
  filename : string;
  snippet : string;
  size : Z;
  relevance : Z;
  match_type : string
}.

(** A file as the scan sees it: its name in the directory listing, what
    [os.path.getsize] answers and what opening and reading it yields;
    [None] stands for a raised exception. *)
Record file : Type := File {
  name : string;
  getsize : option Z;
  read_text : option string
}.

(** What [os.walk] yields: the directories in walk order, each with its
    path and its files. *)
Definition tree : Type := list (string * list file).

(** *** Tokenizer *)

Definition original_query (query : string) : string := strip query.

Definition query_lower (query : string) : string :=
  lower (original_query query).

(** [[word.lower() for word in re.findall(r'\b\w+\b', original_query)
      if len(word) > 1]] *)
Definition keywords_of (original : string) : list string :=
  map lower (filter (fun word => 1 < len word) (findall_words original)).

Definition keywords (query : string) : list string :=
  keywords_of (original_query query).

(** *** Proximity check *)

(** The body of the loop over [enumerate(words)]. *)
Definition note_word (keywords : list string)
    (word_positions : gmap string (list Z)) (i : Z) (word : string)
    : gmap string (list Z) :=
  let word_clean := sub_nonword (lower word) in
  if bool_decide (word_clean ∈ keywords)
  then <[word_clean := default [] (word_positions !! word_clean) ++ [i]]>
         word_positions
  else word_positions.

Fixpoint note_words (keywords : list string) (i : Z) (words : list string)
    (word_positions : gmap string (list Z)) : gmap string (list Z) :=
  match words with
  | [] => word_positions
  | word :: rest =>
      note_words keywords (i + 1) rest
        (note_word keywords word_positions i word)
  end.

Definition within_50 (pos1 pos2 : Z) : bool := Z.abs (pos2 - pos1) <=? 50.

(** The loop over [word_positions[keyword]]; the subscript raises
    [KeyError] on a missing key. *)
Definition found_nearby (word_positions : gmap string (list Z))
    (pos1 : Z) (keyword : string) : option bool :=
  match word_positions !! keyword with
  | None => None
  | Some positions => Some (existsb (within_50 pos1) positions)
  end.

(** The loop over [keywords[1:]], left at the first keyword that is not
    nearby. *)
Fixpoint found_all (word_positions : gmap string (list Z)) (pos1 : Z)
    (others : list string) : option bool :=
  match others with
  | [] => Some true
  | keyword :: rest =>
      match found_nearby word_positions pos1 keyword with
      | None => None
      | Some false => Some false
      | Some true => found_all word_positions pos1 rest
      end
  end.

(** The loop over [first_keyword_positions], left at the first anchor
    that has every other keyword nearby. *)
Fixpoint some_anchor (word_positions : gmap string (list Z))
    (others : list string) (first_keyword_positions : list Z)
    : option bool :=
  match first_keyword_positions with
  | [] => Some false
  | pos1 :: rest =>
      match found_all word_positions pos1 others with
      | None => None
      | Some true => Some true
      | Some false => some_anchor word_positions others rest
      end
  end.

Definition check_phrase_proximity (content : string)
    (keywords : list string) : option bool :=
  if Z.of_nat (length keywords) <? 2 then Some false
  else
    let words := split content in
    let word_positions := note_words keywords 0 words ∅ in
    if negb (Z.of_nat (base.size word_positions) =? Z.of_nat (length keywords))
    then Some false
    else
      match keywords with
      | [] => None
      | first :: others =>
          match word_positions !! first with
          | None => None
          | Some first_keyword_positions =>
              some_anchor word_positions others first_keyword_positions
          end
      end.

(** *** Snippets *)

Definition window (cfg : config) (content : string) (pos width : Z)
    : string :=
  let start := Z.max 0 (pos - 50) in
  let stop := Z.min (len content) (pos + width + 50) in
  let snippet := slice content start stop in
  let snippet := join " " (split snippet) in
  let snippet := if 0 <? start then "..." +:+ snippet else snippet in
  let snippet :=
    if stop <? len content then snippet +:+ "..." else snippet in
  slice_to snippet (MAX_SNIPPET_LENGTH cfg).

Definition get_snippet_for_phrase (cfg : config) (content phrase : string)
    : string :=
  let phrase_lower := lower phrase in
  let content_lower := lower content in
  let pos := find content_lower phrase_lower in
  if pos =? -1
  then slice_to content (MAX_SNIPPET_LENGTH cfg) +:+ "..."
  else window cfg content pos (len phrase).

Definition sentence_sep (c : ascii) : bool :=
  Ascii.eqb c "." || Ascii.eqb c "!" || Ascii.eqb c "?"
  || Ascii.eqb c "010".

Definition sentence_score (keywords : list string) (sentence : string) : Z :=
  let sentence_lower := lower sentence in
  Z.of_nat (length (filter (fun kw => contains kw sentence_lower = true)
                      keywords)).

(** The loop over the sentences; the state is
    [(best_sentence, best_score)]. *)
Fixpoint best_of (keywords : list string) (sentences : list string)
    (best : string * Z) : string * Z :=
  match sentences with
  | [] => best
  | sentence :: rest =>
      let sentence := strip sentence in
      if is_empty sentence then best_of keywords rest best
      else
        let score := sentence_score keywords sentence in
        if snd best <? score
        then best_of keywords rest (sentence, score)
        else best_of keywords rest best
  end.

Fixpoint first_keyword_context (cfg : config) (content : string)
    (keywords : list string) : option string :=
  match keywords with
  | [] => None
  | keyword :: rest =>
      let pos := find (lower content) keyword in
      if negb (pos =? -1)
      then Some (window cfg content pos (len keyword))
      else first_keyword_context cfg content rest
  end.

Definition get_snippet_for_keywords (cfg : config) (content : string)
    (keywords : list string) : string :=
  let sentences := re_split sentence_sep content in
  let best_sentence := fst (best_of keywords sentences (EmptyString, 0)) in
  if negb (is_empty best_sentence)
  then
    if MAX_SNIPPET_LENGTH cfg <? len best_sentence
    then slice_to best_sentence (MAX_SNIPPET_LENGTH cfg - 3) +:+ "..."
    else best_sentence
  else
    match first_keyword_context cfg content keywords with
    | Some context => context
    | None => slice_to content (MAX_SNIPPET_LENGTH cfg) +:+ "..."
    end.

(** *** The scan *)

(** The buckets and counters of one call of [search_files]. *)
Record scan_state : Type := ScanState {
  exact_matches : list result;
  phrase_matches : list result;
  keyword_matches : list result;
  files_searched : Z;
  files_skipped : Z;
  files_error : Z
}.

Definition initial_state : scan_state :=
  {| exact_matches := []; phrase_matches := []; keyword_matches := [];
     files_searched := 0; files_skipped := 0; files_error := 0 |}.

Definition count_searched (st : scan_state) : scan_state :=
  {| exact_matches := exact_matches st;
     phrase_matches := phrase_matches st;
     keyword_matches := keyword_matches st;
     files_searched := files_searched st + 1;
     files_skipped := files_skipped st;
     files_error := files_error st |}.

Definition count_skipped (st : scan_state) : scan_state :=
  {| exact_matches := exact_matches st;
     phrase_matches := phrase_matches st;
     keyword_matches := keyword_matches st;
     files_searched := files_searched st;
     files_skipped := files_skipped st + 1;
     files_error := files_error st |}.

Definition count_error (st : scan_state) : scan_state :=
  {| exact_matches := exact_matches st;
     phrase_matches := phrase_matches st;
     keyword_matches := keyword_matches st;
     files_searched := files_searched st;
     files_skipped := files_skipped st;
     files_error := files_error st + 1 |}.

Definition append_exact (r : result) (st : scan_state) : scan_state :=
  {| exact_matches := exact_matches st ++ [r];
     phrase_matches := phrase_matches st;
     keyword_matches := keyword_matches st;
     files_searched := files_searched st;
     files_skipped := files_skipped st;
     files_error := files_error st |}.

Definition append_phrase (r : result) (st : scan_state) : scan_state :=
  {| exact_matches := exact_matches st;
     phrase_matches := phrase_matches st ++ [r];
     keyword_matches := keyword_matches st;
     files_searched := files_searched st;
     files_skipped := files_skipped st;
     files_error := files_error st |}.

Definition append_keyword (r : result) (st : scan_state) : scan_state :=
  {| exact_matches := exact_matches st;
     phrase_matches := phrase_matches st;
     keyword_matches := keyword_matches st ++ [r];
     files_searched := files_searched st;
     files_skipped := files_skipped st;
     files_error := files_error st |}.

Definition SEP : ascii := "/"%char.

(** [os.path.join(root, file)] for a file name of a directory listing,
    with the separator and the rules of [posixpath]. *)
Definition path_join (root file : string) : string :=
  if is_empty root || endswith (String SEP EmptyString) root
  then root +:+ file
  else root +:+ String SEP file.

Fixpoint basename_from (cur s : string) : string :=
  match s with
  | EmptyString => cur
  | String c s' =>
      if Ascii.eqb c SEP then basename_from EmptyString s'
      else basename_from (snoc cur c) s'
  end.

(** [os.path.basename(p)] *)
Definition basename (p : string) : string := basename_from EmptyString p.

(** [f.read(n)]: at most [n] characters, all of them when [n] is
    negative. *)
Definition read_upto (text : string) (n : Z) : string :=
  if n <? 0 then text else take (Z.to_nat n) text.

(** [sum(content_lower.count(kw) for kw in keywords)] *)
Definition total_count (content_lower : string) (keywords : list string)
    : Z :=
  foldr Z.add 0 (map (count content_lower) keywords).

Definition has_selected_extension (selected_extensions : list string)
    (file_name : string) : bool :=
  existsb (fun ext => endswith (lower ext) (lower file_name))
    selected_extensions.

Section Scan.

Variable cfg : config.
Variable selected_extensions : list string.
(** [original_query], [query_lower] and [keywords] of the call. *)
Variable original : string.
Variable q_lower : string.
Variable kws : list string.

(** Lines 396 to 444: the match of one content that was read, in the
    order exact, phrase, keywords. [None] is an exception raised on
    the way, which the handler of the file catches. *)
Definition match_content (file_path : string) (file_size : Z)
    (content : string) (st : scan_state) : option scan_state :=
  let content_lower := lower content in
  if contains q_lower content_lower then
    let relevance_score := 1000 + count content_lower q_lower * 100 in
    let snippet := get_snippet_for_phrase cfg content original in
    Some (append_exact
            {| path := file_path; filename := basename file_path;
               snippet := snippet; size := file_size;
               relevance := relevance_score;
               match_type := "EXACT MATCH" |} st)
  else
    match (if 1 <? Z.of_nat (length kws)
           then check_phrase_proximity content_lower kws
           else Some false) with
    | None => None
    | Some true =>
        let relevance_score := 500 + total_count content_lower kws * 10 in
        let snippet := get_snippet_for_keywords cfg content kws in
        Some (append_phrase
                {| path := file_path; filename := basename file_path;
                   snippet := snippet; size := file_size;
                   relevance := relevance_score;
                   match_type := "PHRASE MATCH" |} st)
    | Some false =>
        if forallb (fun keyword => contains keyword content_lower) kws
        then
          let relevance_score := total_count content_lower kws * 5 in
          let snippet := get_snippet_for_keywords cfg content kws in
          Some (append_keyword
                  {| path := file_path; filename := basename file_path;
                     snippet := snippet; size := file_size;
                     relevance := relevance_score;
                     match_type := "KEYWORD MATCH" |} st)
        else Some st
    end.

(** Lines 372 to 448: the body of the loop over the files of a
    directory, after the test of the cap. *)
Definition visit_file (root : string) (f : file) (st : scan_state)
    : scan_state :=
  if negb (has_selected_extension selected_extensions (name f)) then st
  else
    let file_path := path_join root (name f) in
    match getsize f with
    | None => count_error st
    | Some file_size =>
        if MAX_FILE_SIZE cfg <? file_size then count_skipped st
        else if file_size =? 0 then st
        else
          let st := count_searched st in
          match read_text f with
          | None => count_error st
          | Some text =>
              let content := read_upto text (MAX_FILE_SIZE cfg) in
              match match_content file_path file_size content st with
              | None => count_error st
              | Some st' => st'
              end
          end
    end.

(** The loop over the files of one directory; it is left as soon as
    the cap is reached. *)
Fixpoint scan_files (root : string) (files : list file) (st : scan_state)
    : scan_state :=
  match files with
  | [] => st
  | f :: rest =>
      if MAX_FILES_TO_SEARCH cfg <=? files_searched st then st
      else scan_files root rest (visit_file root f st)
  end.

(** The loop over [os.walk]; it is left after a directory when the cap
    is reached. *)
Fixpoint walk (t : tree) (st : scan_state) : scan_state :=
  match t with
  | [] => st
  | (root, files) :: rest =>
      let st := scan_files root files st in
      if MAX_FILES_TO_SEARCH cfg <=? files_searched st then st
      else walk rest st
  end.

End Scan.

(** *** Aggregation *)

(** The place of [r] in a bucket sorted by decreasing relevance: behind
    the entries of greater relevance and before those of equal or
    smaller relevance. *)
Fixpoint insert_by_relevance (r : result) (l : list result) : list result :=
  match l with
  | [] => [r]
  | r' :: l' =>
      if relevance r <? relevance r'
      then r' :: insert_by_relevance r l'
      else r :: l
  end.

(** [l.sort(key=lambda x: x['relevance'], reverse=True)]: the sort of
    Python is stable, also with [reverse=True]; the sorted list is the
    one an insertion from the right builds. *)
Definition sort_by_relevance (l : list result) : list result :=
  foldr insert_by_relevance [] l.

Definition all_results (st : scan_state) : list result :=
  sort_by_relevance (exact_matches st)
  ++ sort_by_relevance (phrase_matches st)
  ++ sort_by_relevance (keyword_matches st).

(** *** Rendering *)

Definition size_str (size_bytes : Z) : string :=
  if size_bytes <? 1024 then str size_bytes +:+ " B"
  else if size_bytes <? 1024 * 1024 then fmt_1f size_bytes 1024 +:+ " KB"
  else fmt_1f size_bytes (1024 * 1024) +:+ " MB".

Definition match_indicator (r : result) : string :=
  if String.eqb (match_type r) "EXACT MATCH" then "[EXACT]"
  else if String.eqb (match_type r) "PHRASE MATCH" then "[PHRASE]"
  else "[KEYWORD]".

Definition header_text (files_searched files_skipped : Z) (query : string)
    (n_exact n_phrase n_keyword n_results : Z) : string :=
  "SEARCH RESULTS" +:+ NL
  +:+ "Query: '" +:+ query +:+ "'" +:+ NL
  +:+ "Files searched: " +:+ str files_searched
  +:+ (if 0 <? files_skipped
       then " (skipped " +:+ str files_skipped +:+ " large files)"
       else EmptyString)
  +:+ NL +:+ NL +:+ " MATCH SUMMARY:" +:+ NL
  +:+ "  Exact matches: " +:+ str n_exact +:+ NL
  +:+ "  Phrase matches: " +:+ str n_phrase +:+ NL
  +:+ "  Keyword matches: " +:+ str n_keyword +:+ NL
  +:+ "  Total matches: " +:+ str n_results +:+ NL
  +:+ rep "=" 60 +:+ NL +:+ NL.

Definition result_text (i : Z) (r : result) : string :=
  "[" +:+ str i +:+ "] " +:+ match_indicator r +:+ " " +:+ match_type r
  +:+ " - " +:+ filename r +:+ NL
  +:+ "    Path: " +:+ path r +:+ NL
  +:+ "    Size: " +:+ size_str (size r) +:+ NL
  +:+ "    Content: " +:+ snippet r +:+ NL
  +:+ rep "-" 60 +:+ NL +:+ NL.

Definition truncated_text : string :=
  "More results available but truncated to save space..." +:+ NL.

Definition summary_text (remaining : Z) (n_exact : Z) : string :=
  NL +:+ str remaining +:+ " additional matches not shown." +:+ NL
  +:+ (if 0 <? n_exact
       then "Exact matches are shown first for best relevance." +:+ NL
       else EmptyString).

(** The bullet of the source, a character outside the 8-bit range, is
    written as one [*] so that lengths agree. *)
Definition no_results_text : string :=
  "No files found matching your search." +:+ NL +:+ NL
  +:+ "Suggestions:" +:+ NL
  +:+ "  * Try different or fewer keywords" +:+ NL
  +:+ "  * Check if file types are selected" +:+ NL
  +:+ "  * Verify the directory path is correct" +:+ NL
  +:+ "  * Check spelling of search terms" +:+ NL.

(** The variables the loop over the results updates. *)
Record render_state : Type := RenderState {
  response_parts : list string;
  current_length : Z;
  displayed_count : Z
}.

(** The loop over [enumerate(results, 1)], from index [i] on. *)
Fixpoint render_results (cfg : config) (i : Z) (results : list result)
    (rs : render_state) : render_state :=
  match results with
  | [] => rs
  | r :: rest =>
      if MAX_RESULTS_DISPLAY cfg <=? displayed_count rs then rs
      else
        let text := result_text i r in
        if MAX_TOTAL_RESPONSE_LENGTH cfg <? current_length rs + len text
        then {| response_parts := response_parts rs ++ [truncated_text];
                current_length := current_length rs;
                displayed_count := displayed_count rs |}
        else
          render_results cfg (i + 1) rest
            {| response_parts := response_parts rs ++ [text];
               current_length := current_length rs + len text;
               displayed_count := displayed_count rs + 1 |}
  end.

Definition format_prioritized_results (cfg : config)
    (results : list result) (files_searched files_skipped : Z)
    (query : string) (exact phrase keyword : list result) : string :=
  let n_exact := Z.of_nat (length exact) in
  let n_results := Z.of_nat (length results) in
  let header :=
    header_text files_searched files_skipped query n_exact
      (Z.of_nat (length phrase)) (Z.of_nat (length keyword)) n_results in
  let rs := {| response_parts := [header];
               current_length := len header;
               displayed_count := 0 |} in
  let parts :=
    match results with
    | _ :: _ =>
        let rs := render_results cfg 1 results rs in
        if displayed_count rs <? n_results
        then response_parts rs
             ++ [summary_text (n_results - displayed_count rs) n_exact]
        else response_parts rs
    | [] => response_parts rs ++ [no_results_text]
    end in
  concat parts.

(** *** The search *)

Definition empty_query_text : string :=
  "Please provide meaningful search terms (2+ characters)".

Definition error_footer (files_error : Z) : string :=
  NL +:+ str files_error
  +:+ " files couldn't be read (permissions/encoding issues)".

(** How a call of [search_files] ends: at the early return on a query
    without keywords, or with the report of a scan. Either way one
    message goes to [search_complete]. *)
Inductive outcome : Type :=
| EmptyQuery (message : string)
| Report (message : string) (st : scan_state).

Definition delivered (o : outcome) : string :=
  match o with
  | EmptyQuery message => message
  | Report message _ => message
  end.

(** Lines 454 to 472: the sorted buckets are combined and rendered, and
    the footer is added when some file could not be read. *)
Definition rendered (cfg : config) (original : string) (st : scan_state)
    : string :=
  format_prioritized_results cfg (all_results st) (files_searched st)
    (files_skipped st) original
    (sort_by_relevance (exact_matches st))
    (sort_by_relevance (phrase_matches st))
    (sort_by_relevance (keyword_matches st)).

Definition response_of (cfg : config) (original : string) (st : scan_state)
    : string :=
  let response := rendered cfg original st in
  if 0 <? files_error st
  then response +:+ error_footer (files_error st)
  else response.

Definition search_files (cfg : config) (selected_extensions : list string)
    (t : tree) (query : string) : outcome :=
  let original := original_query query in
  let q_lower := lower original in
  let kws := keywords_of original in
  match kws with
  | [] => EmptyQuery empty_query_text
  | _ :: _ =>
      let st :=
        walk cfg selected_extensions original q_lower kws t initial_state in
      Report (response_of cfg original st) st
  end.

(** *** The directory check and the handling of a message *)

(** The loops of [check_directory] over the files of a directory and over
    [os.walk]: [file_count] grows by one at every file whose name has a
    selected extension. *)
Fixpoint count_files (selected_extensions : list string)
    (files : list file) (file_count : Z) : Z :=
  match files with
  | [] => file_count
  | f :: rest =>
      count_files selected_extensions rest
        (if has_selected_extension selected_extensions (name f)
         then file_count + 1 else file_count)
  end.

Fixpoint count_tree (selected_extensions : list string) (t : tree)
    (file_count : Z) : Z :=
  match t with
  | [] => file_count
  | (_, files) :: rest =>
      count_tree selected_extensions rest
        (count_files selected_extensions files file_count)
  end.

(** [check_directory]: [dir_var] is the text of the directory field,
    [path_exists] stands for [os.path.exists] and [os_walk] for [os.walk].
    The result is the status line and, when the check returns [True], the
    directory it stores in [base_dir]. *)
Definition check_directory (dir_var : string) (path_exists : string -> bool)
    (os_walk : string -> tree) (selected_extensions : list string)
    : string * option string :=
  let directory := strip dir_var in
  if is_empty directory then ("Please select a directory", None)
  else if negb (path_exists directory) then ("Directory does not exist", None)
  else
    match selected_extensions with
    | [] => ("Please select at least one file type", None)
    | _ :: _ =>
        let file_count :=
          count_tree selected_extensions (os_walk directory) 0 in
        ("Ready - Found " +:+ str file_count +:+ " searchable files",
         Some directory)
    end.

(** The first step of [add_message]: a message of more than 100000
    characters is cut. The time stamp and the text widget are not part of
    the model. *)
Definition add_message_text (message : string) : string :=
  if 100000 <? len message
  then slice_to message 100000 +:+ NL +:+ NL
       +:+ "Message truncated for display"
  else message.

(** What [send_message] does with the text of the input field: nothing
    while a search is running or when the text is blank, a refusal when
    the directory check fails, and else the start of a search for the
    stripped text in the directory the check stored. *)
Inductive sent : Type :=
| Ignored
| Refused (message : string)
| Started (base_dir query : string).

Definition send_message (searching : bool) (input_var dir_var : string)
    (path_exists : string -> bool) (os_walk : string -> tree)
    (selected_extensions : list string) : sent :=
  if searching then Ignored
  else
    let query := strip input_var in
    if is_empty query then Ignored
    else
      match snd (check_directory dir_var path_exists os_walk
                   selected_extensions) with
      | None => Refused "Please fix directory settings first"
      | Some base_dir => Started base_dir query
      end.

(** The text that the result of a sent message puts on display:
    [start_search] runs [search_files] on the query, [search_complete]
    hands its message to [add_message]. *)
Definition answer (cfg : config) (searching : bool)
    (input_var dir_var : string) (path_exists : string -> bool)
    (os_walk : string -> tree) (selected_extensions : list string)
    : option string :=
  match send_message searching input_var dir_var path_exists os_walk
          selected_extensions with
  | Ignored => None
  | Refused message => Some (add_message_text message)
  | Started base_dir query =>
      Some (add_message_text
              (delivered (search_files cfg selected_extensions
                            (os_walk base_dir) query)))
  end.

End Radar.

(** ** The plain search of [safe_chatbot.py] *)

Module Safe.

Import Py.

(** The dictionary appended to [results]. *)
Record result : Type := Result {
  path : string;
  filename : string;
  snippet : string;
  size : Z
}.

(** [[word.lower() for word in re.findall(r'\b\w+\b', query)
      if len(word) > 2]] *)
Definition keywords (query : string) : list string :=
  map lower (filter (fun word => 2 < len word) (findall_words query)).

Definition sentence_sep (c : ascii) : bool :=
  Ascii.eqb c "." || Ascii.eqb c "!" || Ascii.eqb c "?".

Fixpoint first_sentence (keywords : list string) (sentences : list string)
    : option string :=
  match sentences with
  | [] => None
  | sentence :: rest =>
      if existsb (fun keyword => contains keyword (lower sentence)) keywords
      then Some (slice_to (strip sentence) 200 +:+ "...")
      else first_sentence keywords rest
  end.

Definition get_snippet (content : string) (keywords : list string)
    : string :=
  match first_sentence keywords (re_split sentence_sep content) with
  | Some s => s
  | None => slice_to content 200 +:+ "..."
  end.

(** The body of the loop over the files: the state is
    [(results, files_searched)]; a bare [except] skips the file when
    reading or sizing it raises. *)
Definition visit_file (selected_extensions : list string)
    (kws : list string) (root : string) (f : Radar.file)
    (st : list result * Z) : list result * Z :=
  if negb (Radar.has_selected_extension selected_extensions (Radar.name f))
  then st
  else
    let file_path := Radar.path_join root (Radar.name f) in
    let st := (fst st, snd st + 1) in
    match Radar.read_text f with
    | None => st
    | Some text =>
        let content := lower text in
        if forallb (fun keyword => contains keyword content) kws
        then
          let snippet := get_snippet content kws in
          match Radar.getsize f with
          | None => st
          | Some file_size =>
              (fst st ++ [ {| path := file_path;
                              filename := Radar.basename file_path;
                              snippet := snippet;
                              size := file_size |} ], snd st)
          end
        else st
    end.

Definition walk (selected_extensions : list string) (kws : list string)
    (t : Radar.tree) (st : list result * Z) : list result * Z :=
  foldl (fun st dir =>
           foldl (fun st f =>
                    visit_file selected_extensions kws (fst dir) f st)
                 st (snd dir))
        st t.

(** The results of [search_files], [None] at the early return on a
    query without keywords. *)
Definition search_files (selected_extensions : list string)
    (t : Radar.tree) (query : string) : option (list result * Z) :=
  let kws := keywords query in
  match kws with
  | [] => None
  | _ :: _ => Some (walk selected_extensions kws t ([], 0))
  end.

End Safe.

Import Py Radar.

(** ** Notions of the specification *)

(** *** Occurrences of a string *)

(** [sub] is a contiguous part of [s]. *)
Definition occurs_in (sub s : string) : Prop :=
  ∃ pre post, s = pre +:+ sub +:+ post.

(** [sub] is the part of [s] that starts at index [p]. *)
Definition occurs_at (sub s : string) (p : nat) : Prop :=
  ∃ pre post, s = pre +:+ sub +:+ post ∧ String.length pre = p.

(** Positions in increasing order, the first at [lo] or later and each one
    at least [w] after the one before: occurrences of a string of length
    [w] at these positions do not overlap. *)
Fixpoint spaced (w lo : nat) (ps : list nat) : Prop :=
  match ps with
  | [] => True
  | p :: rest => (lo <= p)%nat ∧ spaced w (p + w) rest
  end.

(** [ps] lists non-overlapping occurrences of [sub] in [s], none of them
    before [lo]. *)
Definition disjoint_occurrences (sub s : string) (lo : nat) (ps : list nat)
    : Prop :=
  spaced (String.length sub) lo ps ∧ Forall (occurs_at sub s) ps.

(** The number [n] of non-overlapping occurrences of [sub] in [s]. *)
Definition occurrence_count (sub s : string) (n : Z) : Prop :=
  (∃ ps, disjoint_occurrences sub s 0 ps ∧ n = Z.of_nat (length ps)) ∧
  (∀ ps, disjoint_occurrences sub s 0 ps → Z.of_nat (length ps) <= n).

(** *** The tokenizer of the specification *)



(** *** The proximity tier of the specification *)

Definition clean (word : string) : string := sub_nonword (lower word).

(** The indices, counted from [i], of the words that clean to [k]. *)
Fixpoint positions_of (k : string) (i : Z) (words : list string) : list Z :=
  match words with
  | [] => []
  | word :: rest =>
      if decide (clean word = k) then i :: positions_of k (i + 1) rest
      else positions_of k (i + 1) rest
  end.

(** The proximity tier in the words of the specification: [token] occurs
    at word index [p] of the content when the [p]-th white-space delimited
    word, stripped of its non-word characters, is the token. *)
Definition occurs_at_word (content token : string) (p : nat) : Prop :=
  ∃ word, split content !! p = Some word ∧ clean word = token.

(** Every token occurs, and some occurrence of the first token has an
    occurrence of every other token at most 50 words away. *)
Definition proximity_phrase (content : string) (tokens : list string)
    : Prop :=
  (∀ t, t ∈ tokens → ∃ p, occurs_at_word content t p) ∧
  ∃ first others p1,
    tokens = first :: others ∧ occurs_at_word content first p1 ∧
    ∀ t, t ∈ others →
      ∃ p2, occurs_at_word content t p2 ∧
            Z.abs (Z.of_nat p2 - Z.of_nat p1) <= 50.

(** *** Files and visits *)

(** The number of match records held by the three buckets. *)
Definition record_count (st : scan_state) : Z :=
  Z.of_nat (length (exact_matches st) + length (phrase_matches st)
            + length (keyword_matches st)).

(** A file the scan reads: its extension is selected, it has a size that
    is neither zero nor above the limit, and reading it yields [content]. *)
Definition candidate (cfg : config) (exts : list string) (f : file)
    (file_size : Z) (content : string) : Prop :=
  has_selected_extension exts (name f) = true ∧
  getsize f = Some file_size ∧
  file_size ≠ 0 ∧ file_size <= MAX_FILE_SIZE cfg ∧
  ∃ text, read_text f = Some text
          ∧ content = read_upto text (MAX_FILE_SIZE cfg).


(** The ways a visit can end. *)
Inductive visited (kws : list string) (st : scan_state)
    : scan_state → Prop :=
| visited_ignored : visited kws st st
| visited_unsized : visited kws st (count_error st)
| visited_skipped : visited kws st (count_skipped st)
| visited_unread : visited kws st (count_error (count_searched st))
| visited_unmatched : visited kws st (count_searched st)
| visited_exact r :
    match_type r = "EXACT MATCH" →
    visited kws st (append_exact r (count_searched st))
| visited_phrase r :
    match_type r = "PHRASE MATCH" →
    (∃ content, check_phrase_proximity content kws = Some true) →
    visited kws st (append_phrase r (count_searched st))
| visited_keyword r :
    match_type r = "KEYWORD MATCH" →
    visited kws st (append_keyword r (count_searched st)).

(** *** Sorted buckets *)

(** By decreasing relevance. *)
Definition by_relevance (a b : result) : Prop := relevance b <= relevance a.

(** A bucket after its sort: by decreasing relevance, with the same
    records, those of equal relevance in the order of discovery. *)
Definition stably_sorted (bucket sorted : list result) : Prop :=
  Sorted by_relevance sorted ∧
  sorted ≡ₚ bucket ∧
  ∀ k, filter (λ x, relevance x = k) sorted
       = filter (λ x, relevance x = k) bucket.

(** *** Rendered entries *)

(** The entries of the results [shown], numbered from [i]. *)
Fixpoint entry_texts (i : Z) (shown : list result) : list string :=
  match shown with
  | [] => []
  | r :: rest => result_text i r :: entry_texts (i + 1) rest
  end.

(** *** The keyword test on a reported file *)

(** [r] reports a file of the tree that was read and whose lower-cased
    text holds every keyword of [kws]: the test of line 432 of the tiered
    search. *)
Definition holds_all_keywords (t : tree) (kws : list string)
    (r : Safe.result) : Prop :=
  ∃ root files f text,
    (root, files) ∈ t ∧ f ∈ files ∧
    Safe.path r = path_join root (name f) ∧
    read_text f = Some text ∧
    forallb (λ keyword, contains keyword (lower text)) kws = true.

(** *** A cap of two files *)




(** *** The records of a scan *)

(** The three tiers and their buckets. *)
Inductive tier : Type := Exact | Phrase | Keyword.

Definition bucket (k : tier) (st : scan_state) : list result :=
  match k with
  | Exact => exact_matches st
  | Phrase => phrase_matches st
  | Keyword => keyword_matches st
  end.

Definition label (k : tier) : string :=
  match k with
  | Exact => "EXACT MATCH"
  | Phrase => "PHRASE MATCH"
  | Keyword => "KEYWORD MATCH"
  end.

(** The tier of a content that was read, [None] without a match: the
    tests of lines 400, 417 and 432 in their order. *)
Definition tier_of (q_lower : string) (kws : list string) (content : string)
    : option tier :=
  let content_lower := lower content in
  if contains q_lower content_lower then Some Exact
  else if (1 <? Z.of_nat (length kws))
          && bool_decide (check_phrase_proximity content_lower kws
                          = Some true)
  then Some Phrase
  else if forallb (λ keyword, contains keyword content_lower) kws
  then Some Keyword
  else None.

(** The record of a file of tier [k]. *)
Definition record_of (cfg : config) (original q_lower : string)
    (kws : list string) (k : tier) (file_path : string) (file_size : Z)
    (content : string) : result :=
  let content_lower := lower content in
  {| path := file_path;
     filename := basename file_path;
     snippet :=
       match k with
       | Exact => get_snippet_for_phrase cfg content original
       | _ => get_snippet_for_keywords cfg content kws
       end;
     size := file_size;
     relevance :=
       match k with
       | Exact => 1000 + count content_lower q_lower * 100
       | Phrase => 500 + total_count content_lower kws * 10
       | Keyword => total_count content_lower kws * 5
       end;
     match_type := label k |}.

Definition append_to (k : tier) (r : result) (st : scan_state)
    : scan_state :=
  match k with
  | Exact => append_exact r st
  | Phrase => append_phrase r st
  | Keyword => append_keyword r st
  end.

(** [r] is the record that the visit of the file [f] of the directory
    [root] puts into the bucket of tier [k]. *)
Definition produced (cfg : config) (exts : list string)
    (original q_lower : string) (kws : list string) (k : tier)
    (root : string) (f : file) (r : result) : Prop :=
  ∃ file_size content,
    candidate cfg exts f file_size content ∧
    tier_of q_lower kws content = Some k ∧
    r = record_of cfg original q_lower kws k (path_join root (name f))
          file_size content.

(** The characters of a string. *)
Fixpoint chars (s : string) : list ascii :=
  match s with
  | EmptyString => []
  | String c s' => c :: chars s'
  end.

(** The only white space in [s] is the blank: no tab, no line break. *)
Definition only_blanks (s : string) : Prop :=
  Forall (λ c, isspace c = true → c = " "%char) (chars s).

(** The files of a tree in the order of the walk. *)
Definition files_of (t : tree) : list file := List.concat (map snd t).

(** The paths of the files of a tree in the order of the walk. *)
Definition tree_paths (t : tree) : list string :=
  List.concat
    (map (λ dir, map (λ f, path_join (fst dir) (name f)) (snd dir)) t).

(** How many files of a list pass a test. *)
Definition how_many (test : file → bool) (files : list file) : Z :=
  Z.of_nat (length (List.filter test files)).

(** The file has a selected extension and a size above the limit. *)
Definition oversize (cfg : config) (exts : list string) (f : file) : bool :=
  has_selected_extension exts (name f) &&
  match getsize f with
  | Some file_size => MAX_FILE_SIZE cfg <? file_size
  | None => false
  end.

(** The file has a selected extension and a size that is not zero and
    within the limit. *)
Definition searchable (cfg : config) (exts : list string) (f : file)
    : bool :=
  has_selected_extension exts (name f) &&
  match getsize f with
  | Some file_size =>
      negb (MAX_FILE_SIZE cfg <? file_size) && negb (file_size =? 0)
  | None => false
  end.

(** The file has a selected extension and sizing it raises, or it is
    searchable and reading it raises. *)
Definition unreadable (cfg : config) (exts : list string) (f : file)
    : bool :=
  has_selected_extension exts (name f) &&
  match getsize f with
  | Some _ =>
      searchable cfg exts f &&
      match read_text f with Some _ => false | None => true end
  | None => true
  end.

(** ** Properties *)

(** *** The proximity check *)

Section Proximity.

Variable kws : list string.

Lemma note_word_lookup wp i word k :
  note_word kws wp i word !! k =
    if decide (clean word = k ∧ k ∈ kws)
    then Some (default [] (wp !! k) ++ [i])
    else wp !! k.
Proof.
  unfold note_word. cbv zeta. fold (clean word).
  case_bool_decide as Hin; case_decide as Hk.
  - destruct Hk as [<- _]. by rewrite lookup_insert_eq.
  - rewrite lookup_insert_ne; [done|]. intros <-. tauto.
  - destruct Hk as [<- ?]. tauto.
  - done.
Qed.

(** What the dictionary holds for [k] after the loop over the words. *)
Lemma note_words_lookup words i wp k :
  note_words kws i words wp !! k =
    if decide (k ∈ kws)
    then match positions_of k i words with
         | [] => wp !! k
         | ps => Some (default [] (wp !! k) ++ ps)
         end
    else wp !! k.
Proof.
  revert i wp.
  induction words as [|word rest IH]; intros i wp;
    cbn [note_words positions_of].
  - by case_decide.
  - rewrite IH, note_word_lookup.
    destruct (decide (k ∈ kws)) as [Hin|Hin].
    + destruct (decide (clean word = k)) as [Hc|Hc].
      * rewrite decide_True by done.
        destruct (positions_of k (i + 1) rest); simpl; [done|].
        by rewrite <- app_assoc.
      * rewrite decide_False by tauto. done.
    + rewrite decide_False by tauto. done.
Qed.

Lemma note_words_empty_lookup words k :
  note_words kws 0 words ∅ !! k =
    if decide (k ∈ kws)
    then match positions_of k 0 words with
         | [] => None
         | ps => Some ps
         end
    else None.
Proof.
  rewrite note_words_lookup, lookup_empty. simpl.
  case_decide; [|done]. by destruct (positions_of k 0 words).
Qed.

(** Only keywords become keys. *)
Lemma note_words_dom words :
  dom (note_words kws 0 words ∅) ⊆ (list_to_set kws : gset string).
Proof.
  intros k Hk. apply elem_of_dom in Hk as [ps Hps].
  rewrite note_words_empty_lookup in Hps.
  case_decide; [|done]. by apply elem_of_list_to_set.
Qed.

(** As many keys as keywords: then no keyword is repeated and every
    keyword is a key. *)
Lemma note_words_full words :
  base.size (note_words kws 0 words ∅) = length kws →
  NoDup kws ∧ ∀ k, k ∈ kws → is_Some (note_words kws 0 words ∅ !! k).
Proof.
  intros Hsize.
  set (wp := note_words kws 0 words ∅) in *.
  assert (Hsub : ∀ x, x ∈ elements (dom wp) → x ∈ kws).
  { intros x Hx. apply elem_of_elements in Hx.
    apply note_words_dom in Hx. by apply elem_of_list_to_set in Hx. }
  assert (Hperm : elements (dom wp) ≡ₚ kws).
  { apply submseteq_length_Permutation.
    - apply NoDup_submseteq; [apply NoDup_elements | exact Hsub].
    - change (length (elements (dom wp))) with (base.size (dom wp)).
      rewrite size_dom. lia. }
  split.
  - rewrite <- Hperm. apply NoDup_elements.
  - intros k Hk. apply elem_of_dom, elem_of_elements. by rewrite Hperm.
Qed.

Lemma note_words_size words :
  NoDup kws →
  (∀ k, k ∈ kws → is_Some (note_words kws 0 words ∅ !! k)) →
  base.size (note_words kws 0 words ∅) = length kws.
Proof.
  intros Hnd Hall.
  set (wp := note_words kws 0 words ∅) in *.
  rewrite <- size_dom.
  assert (Heq : dom wp = (list_to_set kws : gset string)).
  { apply set_eq. intros k. rewrite elem_of_dom, elem_of_list_to_set.
    split; [|apply Hall].
    intros Hk. apply elem_of_dom in Hk. apply note_words_dom in Hk.
    by apply elem_of_list_to_set in Hk. }
  rewrite Heq. by apply size_list_to_set.
Qed.

End Proximity.

Lemma elem_of_positions_of k words i p :
  p ∈ positions_of k i words ↔
  ∃ (n : nat) w, p = i + Z.of_nat n ∧ words !! n = Some w ∧ clean w = k.
Proof.
  revert i. induction words as [|word rest IH]; intros i; simpl.
  - split; [by intros ?%elem_of_nil|]. by intros (n & w & _ & ? & _).
  - assert (Hrest : p ∈ positions_of k (i + 1) rest ↔
        ∃ (n : nat) w, p = i + Z.of_nat (S n) ∧ rest !! n = Some w
                       ∧ clean w = k).
    { rewrite IH. split; intros (n & w & -> & ? & ?); exists n, w;
        (split; [lia|done]). }
    case_decide as Hc.
    + rewrite elem_of_cons, Hrest. split.
      * intros [->|(n & w & -> & ? & ?)].
        -- exists 0%nat, word. split; [lia|done].
        -- by exists (S n), w.
      * intros ([|n] & w & -> & Hw & ?).
        -- left. lia.
        -- right. by exists n, w.
    + rewrite Hrest. split.
      * intros (n & w & -> & ? & ?). by exists (S n), w.
      * intros ([|n] & w & -> & Hw & ?).
        -- simpl in Hw. congruence.
        -- by exists n, w.
Qed.

Lemma found_all_true wp pos1 others :
  found_all wp pos1 others = Some true ↔
  ∀ k, k ∈ others →
    ∃ ps, wp !! k = Some ps ∧ ∃ p2, p2 ∈ ps ∧ within_50 pos1 p2 = true.
Proof.
  induction others as [|k rest IH]; simpl.
  - split; [|done]. by intros _ k ?%elem_of_nil.
  - unfold found_nearby. split.
    + destruct (wp !! k) as [ps|] eqn:Hk; [|done].
      destruct (existsb (within_50 pos1) ps) eqn:Hex; [|done].
      intros Hrest k' [->|Hin]%elem_of_cons.
      * exists ps. split; [done|].
        apply existsb_exists in Hex as (p2 & Hp2 & ?).
        exists p2. by rewrite list_elem_of_In.
      * by apply IH.
    + intros Hall.
      destruct (Hall k) as (ps & -> & p2 & Hp2 & Hw); [by left|].
      assert (existsb (within_50 pos1) ps = true) as ->.
      { apply existsb_exists. exists p2. by rewrite <- list_elem_of_In. }
      apply IH. intros k' Hk'. apply Hall. by right.
Qed.

Lemma found_all_total wp pos1 others :
  (∀ k, k ∈ others → is_Some (wp !! k)) →
  is_Some (found_all wp pos1 others).
Proof.
  induction others as [|k rest IH]; simpl; intros Hall; [by eexists|].
  unfold found_nearby.
  destruct (Hall k) as [ps ->]; [by left|].
  destruct (existsb (within_50 pos1) ps); [|by eexists].
  apply IH. intros k' ?. apply Hall. by right.
Qed.

Lemma some_anchor_total wp others positions :
  (∀ k, k ∈ others → is_Some (wp !! k)) →
  is_Some (some_anchor wp others positions).
Proof.
  intros Hall. induction positions as [|pos1 rest IH]; simpl; [by eexists|].
  destruct (found_all_total wp pos1 others Hall) as [[] ->]; [by eexists|done].
Qed.

Lemma some_anchor_true wp others positions :
  (∀ k, k ∈ others → is_Some (wp !! k)) →
  some_anchor wp others positions = Some true ↔
  ∃ pos1, pos1 ∈ positions ∧ found_all wp pos1 others = Some true.
Proof.
  intros Hall. induction positions as [|pos1 rest IH]; simpl.
  - split; [done|]. by intros (? & ?%elem_of_nil & _).
  - destruct (found_all_total wp pos1 others Hall) as [[] Hf]; rewrite Hf.
    + split; [|done]. intros _. exists pos1. split; [by left|done].
    + rewrite IH. split.
      * intros (p & ? & ?). exists p. split; [by right|done].
      * intros (p & [->|?]%elem_of_cons & Hp); [congruence|by exists p].
Qed.

(** The check never raises: the subscripts are only reached when every
    keyword is a key of [word_positions]. *)
Lemma check_phrase_proximity_total content kws :
  is_Some (check_phrase_proximity content kws).
Proof.
  unfold check_phrase_proximity.
  destruct (Z.of_nat (length kws) <? 2) eqn:Hlen; [by eexists|].
  cbv zeta.
  destruct (Z.of_nat (base.size (note_words kws 0 (split content) ∅))
            =? Z.of_nat (length kws)) eqn:Hsize; simpl; [|by eexists].
  apply Z.eqb_eq, Nat2Z.inj, note_words_full in Hsize as [_ Hall].
  destruct kws as [|first others]; [done|].
  destruct (Hall first) as [ps ->]; [by left|].
  apply some_anchor_total. intros k ?. apply Hall. by right.
Qed.

Lemma lookup_positions content kws k ps :
  note_words kws 0 (split content) ∅ !! k = Some ps →
  ∀ p, p ∈ ps ↔ ∃ n : nat, p = Z.of_nat n ∧ occurs_at_word content k n.
Proof.
  rewrite note_words_empty_lookup. case_decide; [|done].
  destruct (positions_of k 0 (split content)) as [|p0 ps0] eqn:Hps; [done|].
  intros [= <-] p. rewrite <- Hps, elem_of_positions_of.
  unfold occurs_at_word. split.
  - intros (n & w & -> & ? & ?). exists n. split; [lia|by exists w].
  - intros (n & -> & w & ? & ?). exists n, w. split; [lia|done].
Qed.

Lemma lookup_occurs content kws k :
  k ∈ kws →
  is_Some (note_words kws 0 (split content) ∅ !! k) ↔
  ∃ p, occurs_at_word content k p.
Proof.
  intros Hin. rewrite note_words_empty_lookup, decide_True by done.
  destruct (positions_of k 0 (split content)) as [|p0 ps0] eqn:Hps.
  - split; [by intros [? ?]|]. intros (p & w & Hw & Hc).
    assert (Z.of_nat p ∈ positions_of k 0 (split content)) as Hp.
    { apply elem_of_positions_of. exists p, w. split; [lia|done]. }
    rewrite Hps in Hp. by apply elem_of_nil in Hp.
  - split; [|by eexists]. intros _.
    assert (p0 ∈ positions_of k 0 (split content)) as Hp
      by (rewrite Hps; by left).
    apply elem_of_positions_of in Hp as (n & w & _ & ? & ?).
    exists n, w. done.
Qed.

(** On a list of distinct tokens the check computes the proximity tier of
    the specification. *)
Lemma check_phrase_proximity_distinct content kws :
  NoDup kws → (2 <= length kws)%nat →
  check_phrase_proximity content kws = Some true ↔
  proximity_phrase content kws.
Proof.
  intros Hnd Hlen. unfold check_phrase_proximity.
  assert ((Z.of_nat (length kws) <? 2) = false) as -> by lia.
  cbv zeta. set (wp := note_words kws 0 (split content) ∅).
  destruct (Z.of_nat (base.size wp) =? Z.of_nat (length kws)) eqn:Hsize;
    simpl.
  - apply Z.eqb_eq, Nat2Z.inj, note_words_full in Hsize as [_ Hall].
    fold wp in Hall.
    destruct kws as [|first others]; [simpl in Hlen; lia|].
    destruct (Hall first) as [ps Hps]; [by left|]. rewrite Hps.
    assert (Hothers : ∀ k, k ∈ others → is_Some (wp !! k))
      by (intros k ?; apply Hall; by right).
    rewrite (some_anchor_true _ _ _ Hothers). split.
    + intros (pos1 & Hpos1 & Hfound). split.
      * intros t Ht. by apply (lookup_occurs content (first :: others)), Hall.
      * apply (lookup_positions _ _ _ _ Hps) in Hpos1 as (p1 & -> & Hp1).
        exists first, others, p1. split; [done|]. split; [done|].
        intros t Ht.
        destruct (proj1 (found_all_true _ _ _) Hfound t Ht)
          as (pst & Hpst & p2 & Hp2 & Hnear).
        apply (lookup_positions _ _ _ _ Hpst) in Hp2 as (n2 & -> & Hn2).
        exists n2. split; [done|]. unfold within_50 in Hnear. lia.
    + intros (_ & first' & others' & p1 & [= <- <-] & Hp1 & Hnear).
      exists (Z.of_nat p1). split.
      * apply (lookup_positions _ _ _ _ Hps). by exists p1.
      * apply found_all_true. intros k Hk.
        destruct (Hothers k Hk) as [pst Hpst]. exists pst. split; [done|].
        destruct (Hnear k Hk) as (p2 & Hp2 & Hd).
        exists (Z.of_nat p2). split.
        -- apply (lookup_positions _ _ _ _ Hpst). by exists p2.
        -- unfold within_50. lia.
  - split; [done|]. intros (Hocc & _). exfalso.
    apply Z.eqb_neq in Hsize. apply Hsize. f_equal.
    apply note_words_size; [done|]. intros k Hk.
    apply lookup_occurs; [done|]. by apply Hocc.
Qed.

(** The tier of a content that is no exact match, for two or more
    distinct tokens: a phrase match with the relevance 500 plus 10 for
    every counted occurrence of a token exactly when the proximity tier of
    the specification holds. *)
Lemma phrase_tier_distinct cfg original q_lower kws file_path file_size
    content st :
  NoDup kws → (2 <= length kws)%nat →
  contains q_lower (lower content) = false →
  (proximity_phrase (lower content) kws →
   match_content cfg original q_lower kws file_path file_size content st =
     Some (append_phrase
             {| path := file_path; filename := basename file_path;
                snippet := get_snippet_for_keywords cfg content kws;
                size := file_size;
                relevance := 500 + total_count (lower content) kws * 10;
                match_type := "PHRASE MATCH" |} st)) ∧
  (¬ proximity_phrase (lower content) kws →
   ∃ st', match_content cfg original q_lower kws file_path file_size
            content st = Some st'
          ∧ phrase_matches st' = phrase_matches st).
Proof.
  intros Hnd Hlen Hexact. unfold match_content. rewrite Hexact.
  assert ((1 <? Z.of_nat (length kws)) = true) as -> by lia.
  pose proof (check_phrase_proximity_distinct (lower content) kws Hnd Hlen)
    as Hcheck.
  destruct (check_phrase_proximity_total (lower content) kws) as [b Hb].
  rewrite Hb in *. split.
  - intros Hprox. apply Hcheck in Hprox. by injection Hprox as ->.
  - intros Hprox. destruct b; [by destruct Hprox; apply Hcheck|].
    destruct (forallb _ kws); by eexists.
Qed.

(** With a repeated token the dictionary has fewer keys than the token
    list has entries, and the check answers [False]. *)
Lemma check_phrase_proximity_repeated content kws :
  ¬ NoDup kws → check_phrase_proximity content kws = Some false.
Proof.
  intros Hdup. unfold check_phrase_proximity.
  destruct (Z.of_nat (length kws) <? 2); [done|]. cbv zeta.
  destruct (Z.of_nat (base.size (note_words kws 0 (split content) ∅))
            =? Z.of_nat (length kws)) eqn:Hsize; simpl; [|done].
  apply Z.eqb_eq, Nat2Z.inj, note_words_full in Hsize as [Hnd _]. done.
Qed.

(** *** The scan loops *)

Section ScanFacts.

Variable cfg : config.
Variable exts : list string.
Variables original q_lower : string.
Variable kws : list string.

Abbreviation visit := (visit_file cfg exts original q_lower kws).
Abbreviation scan := (scan_files cfg exts original q_lower kws).
Abbreviation walk_tree := (walk cfg exts original q_lower kws).

(** Once the cap is reached both loops leave the state as it is. *)
Lemma scan_files_capped root files st :
  MAX_FILES_TO_SEARCH cfg <= files_searched st → scan root files st = st.
Proof.
  intros Hcap. destruct files as [|f rest]; simpl; [done|].
  by rewrite (proj2 (Z.leb_le _ _) Hcap).
Qed.

Lemma walk_capped t st :
  MAX_FILES_TO_SEARCH cfg <= files_searched st → walk_tree t st = st.
Proof.
  intros Hcap. destruct t as [|[root files] rest]; simpl; [done|].
  rewrite scan_files_capped by done.
  by rewrite (proj2 (Z.leb_le _ _) Hcap).
Qed.

Lemma scan_files_app root files1 files2 st :
  scan root (files1 ++ files2) st = scan root files2 (scan root files1 st).
Proof.
  revert st. induction files1 as [|f rest IH]; intros st; simpl; [done|].
  destruct (MAX_FILES_TO_SEARCH cfg <=? files_searched st) eqn:Hcap.
  - apply Z.leb_le in Hcap. by rewrite scan_files_capped.
  - apply IH.
Qed.

Lemma walk_app t1 t2 st :
  walk_tree (t1 ++ t2) st = walk_tree t2 (walk_tree t1 st).
Proof.
  revert st. induction t1 as [|[root files] rest IH]; intros st; simpl;
    [done|].
  destruct (MAX_FILES_TO_SEARCH cfg
            <=? files_searched (scan root files st)) eqn:Hcap.
  - apply Z.leb_le in Hcap. by rewrite walk_capped.
  - apply IH.
Qed.

(** A property of the state that every visit keeps is kept by a scan. *)
Lemma scan_files_invariant (P : scan_state → Prop) :
  (∀ root f st,
     files_searched st < MAX_FILES_TO_SEARCH cfg →
     P st → P (visit root f st)) →
  ∀ root files st, P st → P (scan root files st).
Proof.
  intros Hstep root files. induction files as [|f rest IH]; intros st Hst;
    simpl; [done|].
  destruct (MAX_FILES_TO_SEARCH cfg <=? files_searched st) eqn:Hcap;
    [done|].
  apply IH, Hstep; [lia|done].
Qed.

Lemma walk_invariant (P : scan_state → Prop) :
  (∀ root f st,
     files_searched st < MAX_FILES_TO_SEARCH cfg →
     P st → P (visit root f st)) →
  ∀ t st, P st → P (walk_tree t st).
Proof.
  intros Hstep t. induction t as [|[root files] rest IH]; intros st Hst;
    simpl; [done|].
  pose proof (scan_files_invariant P Hstep root files st Hst) as Hscan.
  destruct (MAX_FILES_TO_SEARCH cfg
            <=? files_searched (scan root files st)); [done|].
  by apply IH.
Qed.

(** The count of errors is written and never read: a visit and a scan
    from a state with one more error end with one more error and are
    otherwise the same. *)
Lemma visit_file_count_error root f st :
  visit root f (count_error st) = count_error (visit root f st).
Proof.
  unfold visit_file, match_content.
  repeat case_match; simplify_eq; done.
Qed.

Lemma scan_files_count_error root files st :
  scan root files (count_error st) = count_error (scan root files st).
Proof.
  revert st. induction files as [|f rest IH]; intros st; [done|].
  cbn [scan_files]. change (files_searched (count_error st))
    with (files_searched st).
  destruct (MAX_FILES_TO_SEARCH cfg <=? files_searched st); [done|].
  by rewrite visit_file_count_error, IH.
Qed.

(** The test of the cap after a directory leaves the loop with the
    state that the next directory would leave as it is. *)
Lemma walk_cons root files t st :
  walk_tree ((root, files) :: t) st = walk_tree t (scan root files st).
Proof.
  cbn [walk].
  destruct (MAX_FILES_TO_SEARCH cfg
            <=? files_searched (scan root files st)) eqn:Hcap; [|done].
  apply Z.leb_le in Hcap. by rewrite walk_capped.
Qed.

Lemma walk_count_error t st :
  walk_tree t (count_error st) = count_error (walk_tree t st).
Proof.
  revert st. induction t as [|[root files] rest IH]; intros st; [done|].
  by rewrite !walk_cons, scan_files_count_error, IH.
Qed.

(** What a visit is when the sizing or the reading of a file with a
    selected extension raises. *)
Lemma visit_file_failed root f st :
  has_selected_extension exts (name f) = true →
  getsize f = None ∨
  (∃ file_size, getsize f = Some file_size ∧ file_size ≠ 0
                ∧ file_size <= MAX_FILE_SIZE cfg ∧ read_text f = None) →
  visit root f st
  = count_error (match getsize f with
                 | None => st
                 | Some _ => count_searched st
                 end).
Proof.
  intros Hext Hfail. unfold visit_file. rewrite Hext. simpl.
  destruct Hfail as [Hsize|(file_size & Hsize & Hnz & Hmax & Hread)];
    rewrite Hsize; [done|].
  assert ((MAX_FILE_SIZE cfg <? file_size) = false) as -> by lia.
  assert ((file_size =? 0) = false) as -> by lia.
  by rewrite Hread.
Qed.

Lemma visit_file_errors_nonneg root f st :
  0 <= files_error st → 0 <= files_error (visit root f st).
Proof.
  unfold visit_file, match_content.
  repeat case_match; simplify_eq; simpl; lia.
Qed.

(** The scan of a tree with the file [f] in the directory [root], from
    the state [before] in which [f] is met. *)
Lemma walk_through t1 root files1 f files2 t2 st :
  let before := scan root files1 (walk_tree t1 st) in
  files_searched before < MAX_FILES_TO_SEARCH cfg →
  walk_tree (t1 ++ (root, files1 ++ f :: files2) :: t2) st
  = walk_tree t2 (scan root files2 (visit root f before)).
Proof.
  cbv zeta. intros Hlt.
  rewrite walk_app, walk_cons, scan_files_app. cbn [scan_files].
  by assert ((MAX_FILES_TO_SEARCH cfg
              <=? files_searched (scan root files1 (walk_tree t1 st)))
             = false) as -> by lia.
Qed.

Lemma visit_file_visited root f st : visited kws st (visit root f st).
Proof.
  unfold visit_file, match_content.
  repeat case_match; simplify_eq; try by constructor.
  apply visited_phrase; [done|]. by eexists.
Qed.

End ScanFacts.

(** *** Repeated tokens and the proximity tier *)

(** C10. When the token list holds the same token at two places, the
    proximity check answers [False] on every content, and the scan of any
    tree with these tokens leaves the bucket of phrase matches empty: the
    check compares the number of distinct tokens found with the length of
    the token list, repeats included. *)
Theorem repeated_token_never_phrase
    (cfg : config) (exts : list string) (original q_lower : string)
    (kws : list string) (t : tree) (content : string)
    (i j : nat) (token : string) :
  i ≠ j → kws !! i = Some token → kws !! j = Some token →
  check_phrase_proximity content kws = Some false ∧
  phrase_matches (walk cfg exts original q_lower kws t initial_state) = [].
Proof.
  intros Hij Hi Hj.
  assert (Hdup : ¬ NoDup kws).
  { intros Hnd. apply Hij. by eapply NoDup_lookup. }
  split; [by apply check_phrase_proximity_repeated|].
  apply (walk_invariant cfg exts original q_lower kws
           (λ st, phrase_matches st = [])); [|done].
  intros root f st _ Hst.
  destruct (visit_file_visited cfg exts original q_lower kws root f st)
    as [| | | | | r Hr | r Hr [c Hc] | r Hr]; simpl; try done.
  rewrite check_phrase_proximity_repeated in Hc by done. done.
Qed.

Lemma repeated_token_never_phrase_witness :
  check_phrase_proximity "radar signal radar" ["radar"; "signal"; "radar"]
    = Some false ∧
  phrase_matches
    (walk default_config [".txt"] "radar signal radar" "radar signal radar"
       ["radar"; "signal"; "radar"]
       [("/data", [File "a.txt" (Some 12) (Some "radar signal")])]
       initial_state) = [].
Proof.
  apply (repeated_token_never_phrase default_config [".txt"]
           "radar signal radar" "radar signal radar"
           ["radar"; "signal"; "radar"]
           [("/data", [File "a.txt" (Some 12) (Some "radar signal")])]
           "radar signal radar" 0%nat 2%nat "radar").
  - lia.
  - reflexivity.
  - reflexivity.
Defined.

(** C5. The query [radar signal radar] against a file that reads
    [radar signal]: the content is no exact match, the query has three
    tokens, all of them occur as words of the content and the first one
    has the others within 50 words, which is the proximity tier of the
    specification; yet the check answers [False] and the file lands in the
    bucket of keyword matches with the score 15. *)
Theorem repeated_token_misses_phrase :
  let query := "radar signal radar" in
  let content := "radar signal" in
  let t := [("/data", [File "a.txt" (Some 12) (Some content)])] in
  let st := walk default_config [".txt"] (original_query query)
              (query_lower query) (keywords query) t initial_state in
  keywords query = ["radar"; "signal"; "radar"] ∧
  contains (query_lower query) (lower content) = false ∧
  proximity_phrase (lower content) (keywords query) ∧
  check_phrase_proximity (lower content) (keywords query) = Some false ∧
  exact_matches st = [] ∧
  phrase_matches st = [] ∧
  map (λ r, (filename r, match_type r, relevance r)) (keyword_matches st)
    = [("a.txt", "KEYWORD MATCH", 15)].
Proof.
  cbv zeta. split; [by vm_compute|]. split; [by vm_compute|].
  split; [|by vm_compute].
  assert (Hradar : occurs_at_word "radar signal" "radar" 0)
    by (exists "radar"; by vm_compute).
  assert (Hsignal : occurs_at_word "radar signal" "signal" 1)
    by (exists "signal"; by vm_compute).
  change (lower "radar signal") with "radar signal".
  change (keywords "radar signal radar") with ["radar"; "signal"; "radar"].
  split.
  - intros t Ht. repeat (apply elem_of_cons in Ht as [->|Ht]); eauto.
    by apply elem_of_nil in Ht.
  - exists "radar", ["signal"; "radar"], 0%nat.
    split; [done|]. split; [done|].
    intros t Ht. repeat (apply elem_of_cons in Ht as [->|Ht]).
    + exists 1%nat. split; [done|]. simpl. lia.
    + exists 0%nat. split; [done|]. simpl. lia.
    + by apply elem_of_nil in Ht.
Qed.

(** *** Strings *)

Lemma app_empty_r (s : string) : s +:+ EmptyString = s.
Proof. induction s as [|c s IH]; simpl; [done|by rewrite IH]. Qed.

Lemma app_assoc_str (a b c : string) : (a +:+ b) +:+ c = a +:+ b +:+ c.
Proof. induction a as [|x a IH]; simpl; [done|by rewrite IH]. Qed.

Lemma length_app_str (a b : string) :
  String.length (a +:+ b) = (String.length a + String.length b)%nat.
Proof. induction a as [|x a IH]; simpl; [done|by rewrite IH]. Qed.

Lemma len_app (a b : string) : len (a +:+ b) = len a + len b.
Proof. unfold len. rewrite length_app_str. lia. Qed.

Lemma lower_app (a b : string) : lower (a +:+ b) = lower a +:+ lower b.
Proof. induction a as [|x a IH]; simpl; [done|by rewrite IH]. Qed.

Lemma startswith_spec (p s : string) :
  startswith p s = true ↔ ∃ post, s = p +:+ post.
Proof.
  revert s. induction p as [|a p IH]; intros s; simpl.
  - split; [|done]. intros _. by exists s.
  - destruct s as [|b s].
    + split; [done|]. by intros [post ?].
    + rewrite andb_true_iff, IH. split.
      * intros [Hab [post ->]]. apply Ascii.eqb_eq in Hab as ->.
        by exists post.
      * intros [post [= -> ->]]. split; [apply Ascii.eqb_refl|by exists post].
Qed.

Lemma occurs_at_0 (sub s : string) :
  occurs_at sub s 0 ↔ startswith sub s = true.
Proof.
  rewrite startswith_spec. split.
  - intros ([|] & post & -> & Hlen); [by exists post|done].
  - intros [post ->]. by exists EmptyString, post.
Qed.

Lemma occurs_at_S (sub : string) (c : ascii) (s : string) (p : nat) :
  occurs_at sub (String c s) (S p) ↔ occurs_at sub s p.
Proof.
  split.
  - intros ([|c' pre] & post & Heq & Hlen); [done|].
    simpl in Heq, Hlen. injection Heq as -> ->.
    exists pre, post. split; [done|lia].
  - intros (pre & post & -> & Hlen). exists (String c pre), post.
    split; [done|]. simpl. lia.
Qed.

Lemma occurs_in_at (sub s : string) :
  occurs_in sub s ↔ ∃ p, occurs_at sub s p.
Proof.
  split.
  - intros (pre & post & ->). by exists (String.length pre), pre, post.
  - intros (p & pre & post & -> & _). by exists pre, post.
Qed.

(** [sub in s] decides whether [sub] is a contiguous part of [s]. *)
Lemma contains_spec (sub s : string) :
  contains sub s = true ↔ occurs_in sub s.
Proof.
  rewrite occurs_in_at. induction s as [|c s IH]; simpl.
  - rewrite orb_false_r, <- occurs_at_0. split; [by exists 0%nat|].
    intros (p & pre & post & Heq & <-).
    destruct pre; [by exists EmptyString, post|done].
  - rewrite orb_true_iff, IH, <- occurs_at_0. split.
    + intros [?|[p Hp]]; [by exists 0%nat|].
      exists (S p). by apply occurs_at_S.
    + intros [[|p] Hp]; [by left|]. right. exists p. by apply occurs_at_S in Hp.
Qed.

Lemma occurs_in_trans (a b c : string) :
  occurs_in a b → occurs_in b c → occurs_in a c.
Proof.
  intros (pre1 & post1 & ->) (pre2 & post2 & ->).
  exists (pre2 +:+ pre1), (post1 +:+ post2).
  by rewrite !app_assoc_str.
Qed.

Lemma occurs_in_lower (a b : string) :
  occurs_in a b → occurs_in (lower a) (lower b).
Proof.
  intros (pre & post & ->). exists (lower pre), (lower post).
  by rewrite !lower_app.
Qed.

Lemma lstrip_suffix (s : string) : ∃ pre, s = pre +:+ lstrip s.
Proof.
  induction s as [|c s [pre IH]]; simpl; [by exists EmptyString|].
  destruct (isspace c).
  - exists (String c pre). simpl. by f_equal.
  - by exists EmptyString.
Qed.

Lemma rstrip_prefix (s : string) : ∃ post, s = rstrip s +:+ post.
Proof.
  induction s as [|c s [post IH]]; simpl; [by exists EmptyString|].
  destruct (isspace c && is_empty (rstrip s)) eqn:Hc.
  - by exists (String c s).
  - exists post. simpl. by f_equal.
Qed.

(** The stripped query is a contiguous part of the query as typed. *)
Lemma strip_occurs_in (s : string) : occurs_in (strip s) s.
Proof.
  unfold strip. destruct (lstrip_suffix s) as [pre Hpre].
  destruct (rstrip_prefix (lstrip s)) as [post Hpost].
  exists pre, post. by rewrite <- Hpost.
Qed.

(** *** Counting occurrences *)

Lemma spaced_weaken (w lo lo' : nat) (ps : list nat) :
  (lo' <= lo)%nat → spaced w lo ps → spaced w lo' ps.
Proof. destruct ps; simpl; [done|]. intros ? [? ?]. split; [lia|done]. Qed.

Lemma spaced_shift (w lo : nat) (ps : list nat) :
  spaced w (S lo) (map S ps) ↔ spaced w lo ps.
Proof.
  revert lo. induction ps as [|p rest IH]; intros lo; simpl; [done|].
  rewrite <- IH. simpl. split; intros [? ?]; (split; [lia|done]).
Qed.

Lemma spaced_positive (w lo : nat) (ps : list nat) :
  spaced w (S lo) ps → ∃ ps', ps = map S ps'.
Proof.
  revert lo. induction ps as [|p rest IH]; intros lo; simpl.
  - by exists [].
  - intros [Hp Hrest]. destruct p as [|p]; [lia|].
    destruct (IH (p + w)%nat) as [rest' ->]; [done|].
    by exists (p :: rest').
Qed.

Lemma disjoint_occurrences_shift (sub : string) (c : ascii) (s : string)
    (lo : nat) (ps : list nat) :
  disjoint_occurrences sub (String c s) (S lo) (map S ps) ↔
  disjoint_occurrences sub s lo ps.
Proof.
  unfold disjoint_occurrences. rewrite spaced_shift, Forall_map.
  split; intros [? Hall]; (split; [done|]);
    eapply Forall_impl; try exact Hall; intros p Hp; simpl in *;
    by apply occurs_at_S in Hp || by apply occurs_at_S.
Qed.

(** [s.count(sub)] is the greatest number of non-overlapping occurrences
    of a non-empty [sub] in [s]: some list of that many exists and none is
    longer. *)
Lemma count_from_greatest (sub : string) :
  sub ≠ EmptyString →
  ∀ (s : string) (skip : nat),
    (∃ ps, disjoint_occurrences sub s skip ps
           ∧ count_from sub skip s = Z.of_nat (length ps)) ∧
    (∀ ps, disjoint_occurrences sub s skip ps →
           Z.of_nat (length ps) <= count_from sub skip s).
Proof.
  intros Hsub.
  assert (Hw : ∃ w, String.length sub = S w)
    by (destruct sub; [done|by eexists]).
  destruct Hw as [w Hw].
  induction s as [|c s IH]; intros skip.
  - assert (Hnone : ∀ ps, disjoint_occurrences sub EmptyString skip ps
                          → ps = []).
    { intros [|p ps] [_ Hall]; [done|]. exfalso.
      apply Forall_cons in Hall as [(pre & post & Heq & _) _].
      destruct pre; simpl in Heq; [|done]. destruct sub; done. }
    assert (count_from sub skip EmptyString = 0) as ->.
    { simpl. destruct skip; [|done]. by destruct sub. }
    split.
    + exists []. split; [|done]. split; [done|constructor].
    + intros ps ->%Hnone. done.
  - destruct skip as [|k].
    + cbn [count_from].
      destruct (startswith sub (String c s)) eqn:Hstart.
      * rewrite Hw. replace (S w - 1)%nat with w by lia.
        destruct (IH w) as [(ps & Hps & Hcount) Hmax]. split.
        -- exists (0%nat :: map S ps). split.
           ++ apply (proj2 (disjoint_occurrences_shift sub c s w ps))
                in Hps as [Hsp Hall].
              split.
              ** simpl. split; [lia|]. by rewrite Hw in Hsp |- *.
              ** constructor; [by apply occurs_at_0|done].
           ++ rewrite Hcount. simpl. rewrite length_map. lia.
        -- intros [|p rest] [Hsp Hall]; [simpl; lia|].
           destruct Hsp as [_ Hsp]. apply Forall_cons in Hall as [_ Hall].
           rewrite Hw in Hsp.
           apply (spaced_weaken _ _ (S w)) in Hsp; [|lia].
           destruct (spaced_positive _ _ _ Hsp) as [rest' ->].
           assert (disjoint_occurrences sub s w rest') as Hrest.
           { apply (disjoint_occurrences_shift sub c). split; [|done].
             by rewrite Hw. }
           apply Hmax in Hrest. simpl. rewrite length_map. lia.
      * destruct (IH 0%nat) as [(ps & Hps & Hcount) Hmax]. split.
        -- exists (map S ps). split.
           ++ apply (proj2 (disjoint_occurrences_shift sub c s 0 ps))
                in Hps as [Hsp Hall].
              split; [|done]. eapply spaced_weaken; [|exact Hsp]. lia.
           ++ by rewrite length_map.
        -- intros qs [Hsp Hall].
           assert (Hsp1 : spaced (String.length sub) 1 qs).
           { destruct qs as [|p rest]; [done|]. destruct Hsp as [_ Hsp].
             split; [|done]. destruct p as [|p]; [|lia].
             apply Forall_cons in Hall as [H0 _].
             apply occurs_at_0 in H0. congruence. }
           destruct (spaced_positive _ _ _ Hsp1) as [ps' ->].
           assert (disjoint_occurrences sub s 0 ps') as Hps'
             by by apply (disjoint_occurrences_shift sub c).
           apply Hmax in Hps'. by rewrite length_map.
    + cbn [count_from].
      destruct (IH k) as [(ps & Hps & Hcount) Hmax]. split.
      * exists (map S ps). split.
        -- by apply (disjoint_occurrences_shift sub c).
        -- by rewrite length_map.
      * intros qs Hps'.
        destruct (spaced_positive _ _ _ (proj1 Hps')) as [ps' ->].
        apply (proj1 (disjoint_occurrences_shift sub c s k ps')) in Hps'.
        apply Hmax in Hps'. by rewrite length_map.
Qed.

Lemma count_occurrence_count (s sub : string) :
  sub ≠ EmptyString → occurrence_count sub s (count s sub).
Proof. intros Hsub. apply (count_from_greatest sub Hsub s 0). Qed.

(** *** Tiers of one file *)

Lemma visit_file_candidate cfg exts original q_lower kws root f st
    file_size content :
  candidate cfg exts f file_size content →
  visit_file cfg exts original q_lower kws root f st =
    match match_content cfg original q_lower kws (path_join root (name f))
            file_size content (count_searched st) with
    | Some st' => st'
    | None => count_error (count_searched st)
    end.
Proof.
  intros (Hext & Hsize & Hnz & Hmax & text & Htext & ->).
  unfold visit_file. rewrite Hext, Hsize, Htext. simpl.
  assert ((MAX_FILE_SIZE cfg <? file_size) = false) as -> by lia.
  assert ((file_size =? 0) = false) as -> by lia.
  done.
Qed.

Lemma match_content_exact cfg original q_lower kws file_path file_size
    content st :
  occurs_in q_lower (lower content) →
  match_content cfg original q_lower kws file_path file_size content st =
    Some (append_exact
            {| path := file_path; filename := basename file_path;
               snippet := get_snippet_for_phrase cfg content original;
               size := file_size;
               relevance := 1000 + count (lower content) q_lower * 100;
               match_type := "EXACT MATCH" |} st).
Proof.
  intros Hocc%contains_spec. unfold match_content. by rewrite Hocc.
Qed.

Lemma visited_record_count kws st st' :
  visited kws st st' →
  record_count st <= record_count st' <= record_count st + 1 ∧
  record_count st' - record_count st
    <= files_searched st' - files_searched st.
Proof.
  unfold record_count.
  destruct 1; simpl; rewrite ?length_app; simpl; lia.
Qed.

(** C1. A candidate file whose content holds the query as typed, letter
    case aside, gets one record in the bucket of exact matches and none in
    the two other buckets; and whatever the file, a visit adds at most one
    record to the three buckets together, so that a scan never holds more
    records than it searched files. *)
Theorem exact_tier_wins
    (cfg : config) (exts : list string) (query root : string) (f : file)
    (file_size : Z) (content : string) (st : scan_state) (t : tree) :
  let visit := visit_file cfg exts (original_query query)
                 (query_lower query) (keywords query) root in
  let scanned := walk cfg exts (original_query query) (query_lower query)
                   (keywords query) t initial_state in
  (candidate cfg exts f file_size content →
   occurs_in (lower query) (lower content) →
   ∃ r, match_type r = "EXACT MATCH" ∧
        exact_matches (visit f st) = exact_matches st ++ [r] ∧
        phrase_matches (visit f st) = phrase_matches st ∧
        keyword_matches (visit f st) = keyword_matches st) ∧
  (∀ f' st', record_count (visit f' st') <= record_count st' + 1) ∧
  record_count scanned <= files_searched scanned.
Proof.
  cbv zeta. split; [|split].
  - intros Hcand Hocc.
    rewrite (visit_file_candidate _ _ _ _ _ _ _ _ _ _ Hcand).
    rewrite match_content_exact.
    + eexists. split; [|split; [|split]; simpl; reflexivity]. reflexivity.
    + eapply occurs_in_trans; [|exact Hocc].
      apply occurs_in_lower, strip_occurs_in.
  - intros f' st'. eapply visited_record_count, visit_file_visited.
  - apply (walk_invariant _ _ _ _ _
             (λ st, record_count st <= files_searched st)); [|done].
    intros root' f' st' _ Hst'.
    pose proof (visited_record_count _ _ _
      (visit_file_visited cfg exts (original_query query)
         (query_lower query) (keywords query) root' f' st')). lia.
Qed.

Lemma exact_tier_wins_witness :
  let f := File "a.txt" (Some 13) (Some "The Quick fox") in
  let visit := visit_file default_config [".txt"] (original_query " quick Fox")
                 (query_lower " quick Fox") (keywords " quick Fox") "/data" in
  ∃ r, match_type r = "EXACT MATCH" ∧
       exact_matches (visit f initial_state) = [] ++ [r] ∧
       phrase_matches (visit f initial_state) = [] ∧
       keyword_matches (visit f initial_state) = [].
Proof.
  apply (proj1 (exact_tier_wins default_config [".txt"] " quick Fox" "/data"
                  (File "a.txt" (Some 13) (Some "The Quick fox")) 13
                  "The Quick fox" initial_state [])).
  - split; [reflexivity|]. split; [reflexivity|]. split; [lia|].
    split; [simpl; lia|]. exists "The Quick fox". split; reflexivity.
  - exists "the", EmptyString. reflexivity.
Defined.

Lemma lower_empty (s : string) : lower s = EmptyString → s = EmptyString.
Proof. by destruct s. Qed.

(** A query with a keyword is not empty once stripped. *)
Lemma query_lower_nonempty (query : string) :
  keywords query ≠ [] → query_lower query ≠ EmptyString.
Proof.
  unfold keywords, query_lower. intros Hkws Hq%lower_empty.
  rewrite Hq in Hkws. by apply Hkws.
Qed.

(** C4. For a candidate file whose content holds the stripped query,
    letter case aside, the record of the exact tier has the relevance
    1000 + 100 * n, where n is the number of non-overlapping occurrences
    of the lower-cased query in the lower-cased content: as many
    occurrences can be chosen without overlap, and no more. *)
Theorem exact_score
    (cfg : config) (exts : list string) (query root : string) (f : file)
    (file_size : Z) (content : string) (st : scan_state) :
  keywords query ≠ [] →
  candidate cfg exts f file_size content →
  occurs_in (lower (original_query query)) (lower content) →
  ∃ r n,
    visit_file cfg exts (original_query query) (query_lower query)
      (keywords query) root f st = append_exact r (count_searched st) ∧
    match_type r = "EXACT MATCH" ∧
    occurrence_count (lower (original_query query)) (lower content) n ∧
    relevance r = 1000 + 100 * n.
Proof.
  intros Hkws Hcand Hocc.
  rewrite (visit_file_candidate _ _ _ _ _ _ _ _ _ _ Hcand).
  rewrite match_content_exact by done.
  eexists. exists (count (lower content) (query_lower query)).
  split; [reflexivity|]. split; [reflexivity|]. split.
  - apply count_occurrence_count. by apply query_lower_nonempty.
  - simpl. lia.
Qed.

Lemma exact_score_witness :
  ∃ r n,
    visit_file default_config [".txt"] (original_query "quick brown fox")
      (query_lower "quick brown fox") (keywords "quick brown fox") "/data"
      (File "a.txt" (Some 23) (Some "The Quick Brown Fox ran"))
      initial_state
    = append_exact r (count_searched initial_state) ∧
    match_type r = "EXACT MATCH" ∧
    occurrence_count (lower (original_query "quick brown fox"))
      (lower "The Quick Brown Fox ran") n ∧
    relevance r = 1000 + 100 * n.
Proof.
  apply (exact_score default_config [".txt"] "quick brown fox" "/data"
           (File "a.txt" (Some 23) (Some "The Quick Brown Fox ran")) 23
           "The Quick Brown Fox ran" initial_state).
  - discriminate.
  - split; [reflexivity|]. split; [reflexivity|]. split; [lia|].
    split; [simpl; lia|]. exists "The Quick Brown Fox ran".
    split; reflexivity.
  - exists "the ", " ran". reflexivity.
Defined.

(** The scenario of the specification: one occurrence scores 1100. *)
Example exact_score_once :
  map relevance
    (exact_matches
       (visit_file default_config [".txt"] (original_query "quick brown fox")
          (query_lower "quick brown fox") (keywords "quick brown fox")
          "/data" (File "a.txt" (Some 23) (Some "The Quick Brown Fox ran"))
          initial_state)) = [1100].
Proof. by vm_compute. Qed.

(** *** The cap on the files searched *)

Section Cap.

Variable cfg : config.
Variable exts : list string.
Variables original q_lower : string.
Variable kws : list string.

Abbreviation visit' := (visit_file cfg exts original q_lower kws).
Abbreviation scan' := (scan_files cfg exts original q_lower kws).
Abbreviation walk' := (walk cfg exts original q_lower kws).





End Cap.



(** *** Files that cannot be read *)

(** C7. When sizing a file with a selected extension raises, or when
    reading it raises after its size was accepted, the handler of that
    file catches the exception: the visit adds one to [files_error] and
    leaves the three buckets as they were. The scan is not aborted: when
    the file is met below the cap, the files that follow it in its
    directory and the directories that follow are scanned from the state
    that the visit left, and after a failure of the sizing the scan of
    the tree ends as the scan of the tree without the file does, with one
    more error. The search of such a tree ends with a count of errors
    above zero, and its report ends with a line break, that count and the
    words of the footer. *)
Theorem unreadable_file_counted
    (cfg : config) (exts : list string) (query : string)
    (t1 : tree) (root : string) (files1 : list file) (f : file)
    (files2 : list file) (t2 : tree) :
  let original := original_query query in
  let visit := visit_file cfg exts original (query_lower query)
                 (keywords query) in
  let scan := scan_files cfg exts original (query_lower query)
                (keywords query) in
  let walk_tree := walk cfg exts original (query_lower query)
                     (keywords query) in
  let t := t1 ++ (root, files1 ++ f :: files2) :: t2 in
  has_selected_extension exts (name f) = true →
  getsize f = None ∨
  (∃ file_size, getsize f = Some file_size ∧ file_size ≠ 0
                ∧ file_size <= MAX_FILE_SIZE cfg ∧ read_text f = None) →
  (∀ st,
     files_error (visit root f st) = files_error st + 1 ∧
     exact_matches (visit root f st) = exact_matches st ∧
     phrase_matches (visit root f st) = phrase_matches st ∧
     keyword_matches (visit root f st) = keyword_matches st) ∧
  (∀ st,
     let before := scan root files1 (walk_tree t1 st) in
     files_searched before < MAX_FILES_TO_SEARCH cfg →
     walk_tree t st = walk_tree t2 (scan root files2 (visit root f before)) ∧
     files_error (walk_tree t st)
       = files_error
           (walk_tree t2
              (scan root files2
                 (match getsize f with
                  | None => before
                  | Some _ => count_searched before
                  end))) + 1 ∧
     (getsize f = None →
      walk_tree t st
      = count_error
          (walk_tree (t1 ++ (root, files1 ++ files2) :: t2) st))) ∧
  (files_searched (scan root files1 (walk_tree t1 initial_state))
     < MAX_FILES_TO_SEARCH cfg →
   keywords query ≠ [] →
   let scanned := walk_tree t initial_state in
   0 < files_error scanned ∧
   search_files cfg exts t query
   = Report (rendered cfg original scanned
             +:+ NL +:+ str (files_error scanned)
             +:+ " files couldn't be read (permissions/encoding issues)")
       scanned).
Proof.
  cbv zeta. intros Hext Hfail.
  pose proof (visit_file_failed cfg exts (original_query query)
                (query_lower query) (keywords query) root f) as Hvisit.
  assert (Hgo : ∀ st,
            files_searched
              (scan_files cfg exts (original_query query)
                 (query_lower query) (keywords query) root files1
                 (walk cfg exts (original_query query) (query_lower query)
                    (keywords query) t1 st))
              < MAX_FILES_TO_SEARCH cfg →
            walk cfg exts (original_query query) (query_lower query)
              (keywords query) (t1 ++ (root, files1 ++ f :: files2) :: t2)
              st
            = count_error
                (walk cfg exts (original_query query) (query_lower query)
                   (keywords query) t2
                   (scan_files cfg exts (original_query query)
                      (query_lower query) (keywords query) root files2
                      (match getsize f with
                       | None =>
                           scan_files cfg exts (original_query query)
                             (query_lower query) (keywords query) root
                             files1
                             (walk cfg exts (original_query query)
                                (query_lower query) (keywords query) t1 st)
                       | Some _ =>
                           count_searched
                             (scan_files cfg exts (original_query query)
                                (query_lower query) (keywords query) root
                                files1
                                (walk cfg exts (original_query query)
                                   (query_lower query) (keywords query)
                                   t1 st))
                       end)))).
  { intros st Hlt. rewrite walk_through by done.
    rewrite Hvisit by done.
    by rewrite scan_files_count_error, walk_count_error. }
  split; [|split].
  - intros st. rewrite Hvisit by done. by destruct (getsize f).
  - intros st Hlt. split; [by apply walk_through|]. split.
    + by rewrite Hgo.
    + intros Hnone. rewrite Hgo by done. rewrite Hnone. f_equal.
      by rewrite walk_app, walk_cons, scan_files_app.
  - intros Hlt Hkws.
    assert (Herr : 0 < files_error
                         (walk cfg exts (original_query query)
                            (query_lower query) (keywords query)
                            (t1 ++ (root, files1 ++ f :: files2) :: t2)
                            initial_state)).
    { rewrite Hgo by done. cbn [count_error files_error].
      cut (0 <= files_error
                  (walk cfg exts (original_query query) (query_lower query)
                     (keywords query) t2
                     (scan_files cfg exts (original_query query)
                        (query_lower query) (keywords query) root files2
                        (match getsize f with
                         | None =>
                             scan_files cfg exts (original_query query)
                               (query_lower query) (keywords query) root
                               files1
                               (walk cfg exts (original_query query)
                                  (query_lower query) (keywords query) t1
                                  initial_state)
                         | Some _ =>
                             count_searched
                               (scan_files cfg exts (original_query query)
                                  (query_lower query) (keywords query) root
                                  files1
                                  (walk cfg exts (original_query query)
                                     (query_lower query) (keywords query)
                                     t1 initial_state))
                         end)))); [lia|].
      apply (walk_invariant cfg exts (original_query query)
               (query_lower query) (keywords query)
               (λ st, 0 <= files_error st));
        [intros; by apply visit_file_errors_nonneg|].
      apply (scan_files_invariant cfg exts (original_query query)
               (query_lower query) (keywords query)
               (λ st, 0 <= files_error st));
        [intros; by apply visit_file_errors_nonneg|].
      assert (0 <= files_error
                     (scan_files cfg exts (original_query query)
                        (query_lower query) (keywords query) root files1
                        (walk cfg exts (original_query query)
                           (query_lower query) (keywords query) t1
                           initial_state))) as Hbefore.
      { apply (scan_files_invariant cfg exts (original_query query)
                 (query_lower query) (keywords query)
                 (λ st, 0 <= files_error st));
          [intros; by apply visit_file_errors_nonneg|].
        apply (walk_invariant cfg exts (original_query query)
                 (query_lower query) (keywords query)
                 (λ st, 0 <= files_error st));
          [intros; by apply visit_file_errors_nonneg|].
        done. }
      by destruct (getsize f). }
    split; [done|].
    unfold search_files, keywords, query_lower in *.
    destruct (keywords_of (original_query query)) as [|kw kws] eqn:Hk;
      [done|].
    unfold response_of, error_footer.
    by assert ((0 <? files_error
                  (walk cfg exts (original_query query)
                     (lower (original_query query)) (kw :: kws)
                     (t1 ++ (root, files1 ++ f :: files2) :: t2)
                     initial_state)) = true) as -> by lia.
Qed.

Lemma unreadable_file_counted_witness :
  let f := File "a.txt" (Some 9) None in
  let t := [("/data", [f; File "b.txt" (Some 3) (Some "fox")]);
            ("/data/sub", [File "c.txt" (Some 7) (Some "red fox")])] in
  let scanned :=
    walk default_config [".txt"] (original_query "fox") (query_lower "fox")
      (keywords "fox") t initial_state in
  0 < files_error scanned ∧
  search_files default_config [".txt"] t "fox"
  = Report (rendered default_config (original_query "fox") scanned
            +:+ NL +:+ str (files_error scanned)
            +:+ " files couldn't be read (permissions/encoding issues)")
      scanned.
Proof.
  apply (unreadable_file_counted default_config [".txt"] "fox" [] "/data" []
           (File "a.txt" (Some 9) None)
           [File "b.txt" (Some 3) (Some "fox")]
           [("/data/sub", [File "c.txt" (Some 7) (Some "red fox")])]).
  - reflexivity.
  - right. exists 9. split; [reflexivity|]. split; [lia|].
    split; [simpl; lia|reflexivity].
  - simpl. lia.
  - discriminate.
Defined.

(** *** Sorting the buckets *)

Lemma insert_by_relevance_perm r l : insert_by_relevance r l ≡ₚ r :: l.
Proof.
  induction l as [|r' l IH]; simpl; [done|].
  destruct (relevance r <? relevance r'); [|done].
  rewrite IH. apply Permutation_swap.
Qed.

Lemma insert_by_relevance_hd r a l :
  by_relevance a r → HdRel by_relevance a l →
  HdRel by_relevance a (insert_by_relevance r l).
Proof.
  intros Har Hal. destruct l as [|r' l]; simpl; [by constructor|].
  destruct (relevance r <? relevance r'); constructor; [|done].
  by inversion Hal.
Qed.

Lemma insert_by_relevance_sorted r l :
  Sorted by_relevance l → Sorted by_relevance (insert_by_relevance r l).
Proof.
  induction 1 as [|r' l Hl IH Hhd]; simpl; [by repeat constructor|].
  destruct (relevance r <? relevance r') eqn:Hlt.
  - constructor; [done|]. apply insert_by_relevance_hd; [|done].
    unfold by_relevance. lia.
  - constructor; [by constructor|]. constructor. unfold by_relevance. lia.
Qed.

(** Among the entries of one relevance the inserted one comes first. *)
Lemma insert_by_relevance_stable k r l :
  filter (λ x, relevance x = k) (insert_by_relevance r l)
  = filter (λ x, relevance x = k) (r :: l).
Proof.
  induction l as [|r' l IH]; simpl; [done|].
  destruct (relevance r <? relevance r') eqn:Hlt; [|done].
  rewrite filter_cons, IH, !filter_cons.
  repeat case_decide; try done. lia.
Qed.

Lemma sort_by_relevance_sorted l : Sorted by_relevance (sort_by_relevance l).
Proof.
  induction l as [|r l IH]; simpl; [constructor|].
  by apply insert_by_relevance_sorted.
Qed.

Lemma sort_by_relevance_perm l : sort_by_relevance l ≡ₚ l.
Proof.
  induction l as [|r l IH]; simpl; [done|].
  by rewrite insert_by_relevance_perm, IH.
Qed.

Lemma sort_by_relevance_stable k l :
  filter (λ x, relevance x = k) (sort_by_relevance l)
  = filter (λ x, relevance x = k) l.
Proof.
  induction l as [|r l IH]; simpl; [done|].
  by rewrite insert_by_relevance_stable, !filter_cons, IH.
Qed.

(** C8. The results rendered after a scan are the three buckets, each
    sorted by decreasing relevance with ties in the order of discovery,
    put one behind the other: exact, phrase, keyword. *)
Theorem results_sorted_by_tier
    (cfg : config) (exts : list string) (t : tree) (query : string) :
  let original := original_query query in
  let st := walk cfg exts original (query_lower query) (keywords query) t
              initial_state in
  ∃ exact phrase keyword,
    all_results st = exact ++ phrase ++ keyword ∧
    stably_sorted (exact_matches st) exact ∧
    stably_sorted (phrase_matches st) phrase ∧
    stably_sorted (keyword_matches st) keyword ∧
    rendered cfg original st
      = format_prioritized_results cfg (exact ++ phrase ++ keyword)
          (files_searched st) (files_skipped st) original
          exact phrase keyword ∧
    search_files cfg exts t query
      = match keywords query with
        | [] => EmptyQuery empty_query_text
        | _ :: _ => Report (response_of cfg original st) st
        end.
Proof.
  cbv zeta.
  exists (sort_by_relevance (exact_matches (walk cfg exts
            (original_query query) (query_lower query) (keywords query) t
            initial_state))).
  exists (sort_by_relevance (phrase_matches (walk cfg exts
            (original_query query) (query_lower query) (keywords query) t
            initial_state))).
  exists (sort_by_relevance (keyword_matches (walk cfg exts
            (original_query query) (query_lower query) (keywords query) t
            initial_state))).
  assert (Hsorted : ∀ l, stably_sorted l (sort_by_relevance l)).
  { intros l. split; [apply sort_by_relevance_sorted|].
    split; [apply sort_by_relevance_perm|].
    intros k. apply sort_by_relevance_stable. }
  repeat (split; [done|]).
  unfold search_files, keywords, query_lower.
  by destruct (keywords_of (original_query query)).
Qed.

(** *** The tokenizer *)


Lemma isspace_not_word c : isspace c = true → isword c = false.
Proof. destruct c as [[] [] [] [] [] [] [] []]; by vm_compute. Qed.

Lemma pieces_lstrip s :
  let sep := λ c, negb (isword c) in
  pieces sep EmptyString (lstrip s) = pieces sep EmptyString s.
Proof.
  induction s as [|c s IH]; simpl; [done|].
  destruct (isspace c) eqn:Hc; [|done].
  by rewrite (isspace_not_word c Hc).
Qed.

Lemma pieces_rstrip cur s :
  let sep := λ c, negb (isword c) in
  pieces sep cur (rstrip s) = pieces sep cur s.
Proof.
  simpl. revert cur. induction s as [|c s IH]; intros cur; [done|].
  cbn [rstrip].
  destruct (isspace c && is_empty (rstrip s)) eqn:Hc.
  - apply andb_true_iff in Hc as [Hc Hempty].
    cbn [pieces]. rewrite (isspace_not_word c Hc). simpl.
    rewrite <- IH. destruct (rstrip s); [|done]. simpl. by destruct cur.
  - cbn [pieces]. destruct (negb (isword c)); [|apply IH].
    by rewrite IH.
Qed.

(** Stripping the query does not change its words. *)
Lemma findall_words_strip s : findall_words (strip s) = findall_words s.
Proof.
  unfold findall_words, strip.
  rewrite (pieces_rstrip EmptyString), pieces_lstrip. done.
Qed.

Lemma len_lower s : len (lower s) = len s.
Proof. unfold len. f_equal. induction s; simpl; by f_equal. Qed.


Lemma keywords_keywords_of query : keywords query = keywords_of query.
Proof.
  unfold keywords, keywords_of, original_query.
  by rewrite findall_words_strip.
Qed.





(** *** The plain search against the keyword tier *)

Lemma safe_visit_file_reports exts kws root f st r :
  r ∈ fst (Safe.visit_file exts kws root f st) →
  r ∈ fst st ∨
  ∃ text, Safe.path r = path_join root (name f) ∧
          read_text f = Some text ∧
          forallb (λ keyword, contains keyword (lower text)) kws = true.
Proof.
  unfold Safe.visit_file.
  destruct (negb (has_selected_extension exts (name f))); [by left|].
  destruct (read_text f) as [text|]; [|by left].
  destruct (forallb _ kws) eqn:Hall; [|by left].
  destruct (getsize f) as [file_size|]; [|by left].
  simpl. intros [Hr|Hr]%elem_of_app; [by left|].
  apply list_elem_of_singleton in Hr as ->. right. by exists text.
Qed.

Lemma safe_walk_reports exts kws t :
  ∀ r, r ∈ fst (Safe.walk exts kws t ([], 0)) → holds_all_keywords t kws r.
Proof.
  unfold Safe.walk.
  assert (Hdirs : ∀ t' st,
    (∀ dir, dir ∈ t' → dir ∈ t) →
    (∀ r, r ∈ fst st → holds_all_keywords t kws r) →
    ∀ r, r ∈ fst (foldl (λ st dir,
                     foldl (λ st f,
                              Safe.visit_file exts kws (fst dir) f st)
                           st (snd dir)) st t') →
         holds_all_keywords t kws r).
  { induction t' as [|[root files] t' IH]; intros st Hsub Hst; [done|].
    cbn [foldl fst snd]. apply IH.
    - intros dir ?. apply Hsub. by right.
    - assert (Hfiles : ∀ files' st',
        (∀ f, f ∈ files' → f ∈ files) →
        (∀ r, r ∈ fst st' → holds_all_keywords t kws r) →
        ∀ r, r ∈ fst (foldl (λ st f, Safe.visit_file exts kws root f st)
                        st' files') →
             holds_all_keywords t kws r).
      { induction files' as [|f files' IHf]; intros st' Hsubf Hst'; [done|].
        cbn [foldl]. apply IHf.
        - intros f' ?. apply Hsubf. by right.
        - intros r [Hr|(text & Hpath & Hread & Hall)]%safe_visit_file_reports;
            [by apply Hst'|].
          exists root, files, f, text. split; [apply Hsub; by left|].
          split; [apply Hsubf; by left|]. done. }
      by apply Hfiles. }
  apply Hdirs; [done|]. by intros r ?%elem_of_nil.
Qed.

Lemma filter_agree {A} (P Q : A → Prop) `{∀ x, Decision (P x)}
    `{∀ x, Decision (Q x)} (l : list A) :
  Forall (λ x, P x ↔ Q x) l → filter P l = filter Q l.
Proof.
  induction 1 as [|x l Hx _ IH]; [done|].
  rewrite !filter_cons, IH. repeat case_decide; tauto || done.
Qed.

(** C9 as stated fails: with a word of two characters in the query the
    plain search drops a token that the tiered search keeps, and reports
    a file whose content does not hold every token of the tiered search,
    a file the tiered search does not report at all. *)
Lemma safe_reports_beyond_keyword_tier :
  let t := [("/data", [File "a.txt" (Some 3) (Some "cde")])] in
  let query := "ab cde" in
  Safe.search_files [".txt"] t query
    = Some ([Safe.Result "/data/a.txt" "a.txt" "cde..." 3], 1) ∧
  keywords query = ["ab"; "cde"] ∧
  Safe.keywords query = ["cde"] ∧
  forallb (λ keyword, contains keyword (lower "cde")) (keywords query)
    = false ∧
  all_results
    (walk default_config [".txt"] (original_query query) (query_lower query)
       (keywords query) t initial_state) = [].
Proof. by vm_compute. Qed.

(** C9, amended. When no word of the query has exactly two characters,
    the plain search and the tiered search take the same keywords, and
    every file the plain search reports is a file of the tree whose text
    holds all of them, which is the test of the keyword tier. *)
Theorem safe_reports_hold_all_keywords
    (exts : list string) (t : tree) (query : string)
    (results : list Safe.result) (n : Z) :
  Forall (λ word, len word ≠ 2) (findall_words query) →
  Safe.search_files exts t query = Some (results, n) →
  Safe.keywords query = keywords query ∧
  ∀ r, r ∈ results → holds_all_keywords t (keywords query) r.
Proof.
  intros Hwords Hsearch.
  assert (Hsame : Safe.keywords query = keywords query).
  { rewrite keywords_keywords_of. unfold Safe.keywords, keywords_of.
    f_equal. apply filter_agree.
    eapply Forall_impl; [exact Hwords|]. simpl. intros w ?. lia. }
  split; [done|]. rewrite <- Hsame.
  unfold Safe.search_files in Hsearch.
  destruct (Safe.keywords query) as [|kw kws] eqn:Hk; [done|].
  injection Hsearch as Hwalk.
  intros r Hr. apply (safe_walk_reports exts).
  by rewrite Hwalk.
Qed.

Lemma safe_reports_hold_all_keywords_witness :
  let t := [("/data", [File "a.txt" (Some 7) (Some "Cde abc");
                       File "b.txt" (Some 3) (Some "cde")])] in
  Safe.keywords "abc cde" = keywords "abc cde" ∧
  ∀ r, r ∈ [Safe.Result "/data/a.txt" "a.txt" "cde abc..." 7] →
       holds_all_keywords t (keywords "abc cde") r.
Proof.
  apply (safe_reports_hold_all_keywords [".txt"]
           [("/data", [File "a.txt" (Some 7) (Some "Cde abc");
                       File "b.txt" (Some 3) (Some "cde")])]
           "abc cde" [Safe.Result "/data/a.txt" "a.txt" "cde abc..." 7] 2).
  - repeat constructor; discriminate.
  - reflexivity.
Defined.

(** *** The budget of the report *)

Lemma concat_app (l1 l2 : list string) :
  concat (l1 ++ l2) = concat l1 +:+ concat l2.
Proof.
  induction l1 as [|x l1 IH]; simpl; [done|].
  by rewrite IH, app_assoc_str.
Qed.

(** How the loop over the results ends: it commits the entries of a
    prefix [shown] of the results, each after the test of the budget, and
    stops at the end of the results, at the display limit, or, [budget]
    being [true], at the first entry that does not fit, in whose place it
    puts the truncation marker. *)
Lemma render_results_spec cfg results :
  ∀ i rs,
    let rs' := render_results cfg i results rs in
    ∃ shown rest (budget : bool),
      results = shown ++ rest ∧
      response_parts rs'
        = response_parts rs ++ entry_texts i shown
          ++ (if budget then [truncated_text] else []) ∧
      current_length rs'
        = current_length rs + len (concat (entry_texts i shown)) ∧
      displayed_count rs' = displayed_count rs + Z.of_nat (length shown) ∧
      (shown ≠ [] → current_length rs' <= MAX_TOTAL_RESPONSE_LENGTH cfg) ∧
      if budget
      then ∃ r rest', rest = r :: rest' ∧
             MAX_TOTAL_RESPONSE_LENGTH cfg
             < current_length rs'
               + len (result_text (i + Z.of_nat (length shown)) r)
      else rest = [] ∨ MAX_RESULTS_DISPLAY cfg <= displayed_count rs'.
Proof.
  induction results as [|r results IH]; intros i rs; cbn [render_results].
  - exists [], [], false. simpl. rewrite app_nil_r.
    repeat split; try done; try (unfold len; simpl; lia); try by left.
  - destruct (MAX_RESULTS_DISPLAY cfg <=? displayed_count rs) eqn:Hshow.
    { exists [], (r :: results), false. simpl. rewrite app_nil_r.
      repeat split; try done; try (unfold len; simpl; lia);
        try (right; lia). }
    destruct (MAX_TOTAL_RESPONSE_LENGTH cfg
              <? current_length rs + len (result_text i r)) eqn:Hfit.
    { exists [], (r :: results), true. simpl.
      repeat split; try done; try (unfold len; simpl; lia);
        try (exists r, results; split; [done|]; rewrite Z.add_0_r; lia). }
    destruct (IH (i + 1)
                {| response_parts := response_parts rs ++ [result_text i r];
                   current_length := current_length rs
                                     + len (result_text i r);
                   displayed_count := displayed_count rs + 1 |})
      as (shown & rest & budget & Hres & Hparts & Hlen & Hcount & Hcap & Hend).
    simpl in Hparts, Hlen, Hcount.
    exists (r :: shown), rest, budget.
    split; [by rewrite Hres|].
    split; [by rewrite Hparts, <- app_assoc|].
    split; [rewrite Hlen; cbn [entry_texts concat]; rewrite len_app; lia|].
    split; [rewrite Hcount; simpl; lia|].
    split.
    + intros _. destruct shown as [|r' shown'].
      * rewrite Hlen. unfold len at 2. simpl. lia.
      * by apply Hcap.
    + destruct budget.
      * destruct Hend as (r' & rest' & -> & Hover).
        exists r', rest'. split; [done|].
        replace (i + Z.of_nat (length (r :: shown)))
          with (i + 1 + Z.of_nat (length shown)) by (simpl; lia).
        done.
      * done.
Qed.

(** C2 as stated fails: a query of 50002 characters makes the header
    alone longer than the limit of 50000 characters; the report of a
    search in an empty tree is that header and the block of suggestions. *)
Lemma report_exceeds_limit :
  let query := "ab" +:+ rep "-" (Z.to_nat 50000) in
  MAX_TOTAL_RESPONSE_LENGTH default_config
  < len (delivered (search_files default_config [".txt"] [] query)).
Proof. by vm_compute. Qed.

(** C2, amended. The report is the header, the entries of a prefix
    [shown] of the results, and a tail. The budget is tested before each
    entry is committed: as soon as one entry is shown, the header and the
    entries shown are together within [MAX_TOTAL_RESPONSE_LENGTH]. The
    tail is the block of suggestions when there are no results; nothing
    when every result is shown; the note counting the results left out
    when the display limit stopped the loop; the truncation marker and
    that note when the next entry did not fit the budget. The tail is not
    part of the budget, nor is the footer on unreadable files that
    [search_files] appends. *)
Theorem report_budget
    (cfg : config) (results : list result) (searched skipped : Z)
    (query : string) (exact phrase keyword : list result)
    (original : string) (st : scan_state) :
  let n_exact := Z.of_nat (length exact) in
  let header :=
    header_text searched skipped query n_exact (Z.of_nat (length phrase))
      (Z.of_nat (length keyword)) (Z.of_nat (length results)) in
  let limit := MAX_TOTAL_RESPONSE_LENGTH cfg in
  (∃ shown rest tail,
     results = shown ++ rest ∧
     format_prioritized_results cfg results searched skipped query
       exact phrase keyword
       = header +:+ concat (entry_texts 1 shown) +:+ tail ∧
     (shown ≠ [] → len (header +:+ concat (entry_texts 1 shown)) <= limit) ∧
     len (header +:+ concat (entry_texts 1 shown))
       <= Z.max limit (len header) ∧
     ((results = [] ∧ tail = no_results_text)
      ∨ (results ≠ [] ∧ rest = [] ∧ tail = EmptyString)
      ∨ (rest ≠ [] ∧ MAX_RESULTS_DISPLAY cfg <= Z.of_nat (length shown) ∧
         tail = summary_text (Z.of_nat (length rest)) n_exact)
      ∨ ((∃ r rest',
            rest = r :: rest' ∧
            limit < len (header +:+ concat (entry_texts 1 shown))
                    + len (result_text (1 + Z.of_nat (length shown)) r)) ∧
         tail = truncated_text
                +:+ summary_text (Z.of_nat (length rest)) n_exact))) ∧
  response_of cfg original st
    = rendered cfg original st
      +:+ (if 0 <? files_error st then error_footer (files_error st)
           else EmptyString).
Proof.
  cbv zeta. split.
  2: { unfold response_of.
       destruct (0 <? files_error st); [done|by rewrite app_empty_r]. }
  unfold format_prioritized_results.
  set (n_exact := Z.of_nat (length exact)).
  set (header := header_text searched skipped query n_exact
                   (Z.of_nat (length phrase)) (Z.of_nat (length keyword))
                   (Z.of_nat (length results))).
  clearbody header n_exact.
  destruct results as [|r0 results0] eqn:Hresults.
  { exists [], [], no_results_text. cbn [entry_texts concat app].
    rewrite !app_empty_r.
    split; [done|]. split; [done|]. split; [done|].
    split; [lia|]. by left. }
  rewrite <- Hresults.
  assert (Hne : results ≠ []) by (by rewrite Hresults).
  clear Hresults.
  destruct (render_results_spec cfg results 1
              {| response_parts := [header]; current_length := len header;
                 displayed_count := 0 |})
    as (shown & rest & budget & Hres & Hparts & Hlen & Hcount & Hcap & Hend).
  cbn [response_parts current_length displayed_count] in Hparts, Hlen, Hcount.
  set (rs := render_results cfg 1 results
               {| response_parts := [header]; current_length := len header;
                  displayed_count := 0 |}) in *.
  assert (Hshown : len (header +:+ concat (entry_texts 1 shown))
                   = current_length rs) by (by rewrite Hlen, len_app).
  assert (Hrest : Z.of_nat (length results)
                  = Z.of_nat (length shown) + Z.of_nat (length rest))
    by (rewrite Hres, length_app; lia).
  assert (Hmax : len (header +:+ concat (entry_texts 1 shown))
                 <= Z.max (MAX_TOTAL_RESPONSE_LENGTH cfg) (len header)).
  { destruct shown as [|r shown'].
    - cbn [entry_texts concat]. rewrite app_empty_r. lia.
    - rewrite Hshown. etrans; [by apply Hcap|]. lia. }
  rewrite Hcount, Hparts.
  destruct budget.
  - destruct Hend as (r & rest' & -> & Hover).
    exists shown, (r :: rest'),
      (truncated_text
       +:+ summary_text (Z.of_nat (length (r :: rest'))) n_exact).
    split; [done|]. split.
    + assert ((0 + Z.of_nat (length shown) <? Z.of_nat (length results))
              = true) as -> by (cbn [length] in Hrest; lia).
      rewrite <- !app_assoc, !concat_app. cbn [concat app].
      rewrite !app_empty_r.
      replace (Z.of_nat (length results) - (0 + Z.of_nat (length shown)))
        with (Z.of_nat (length (r :: rest'))) by lia.
      done.
    + split; [by rewrite Hshown|]. split; [done|].
      right. right. right. split; [|done].
      exists r, rest'. split; [done|]. by rewrite Hshown.
  - destruct rest as [|r rest'].
    + exists shown, [], EmptyString. split; [done|]. split.
      * assert ((0 + Z.of_nat (length shown) <? Z.of_nat (length results))
                = false) as -> by (cbn [length] in Hrest; lia).
        rewrite !concat_app. cbn [concat app]. by rewrite !app_empty_r.
      * split; [by rewrite Hshown|]. split; [done|].
        right. left. done.
    + destruct Hend as [?|Hshow]; [done|].
      exists shown, (r :: rest'),
        (summary_text (Z.of_nat (length (r :: rest'))) n_exact).
      split; [done|]. split.
      * assert ((0 + Z.of_nat (length shown) <? Z.of_nat (length results))
                = true) as -> by (cbn [length] in Hrest; lia).
        rewrite <- !app_assoc, !concat_app. cbn [concat app].
        rewrite !app_empty_r.
        replace (Z.of_nat (length results) - (0 + Z.of_nat (length shown)))
          with (Z.of_nat (length (r :: rest'))) by lia.
        done.
      * split; [by rewrite Hshown|]. split; [done|].
        right. right. left. split; [done|]. split; [|done].
        rewrite Hcount in Hshow. lia.
Qed.

(** ** Further properties of the tiered search *)

(** *** The match of one content *)

(** The matching never raises: it ends with the record of the first tier
    that holds, or with the state as it was. *)
Lemma match_content_tier cfg original q_lower kws file_path file_size
    content st :
  match_content cfg original q_lower kws file_path file_size content st =
    Some match tier_of q_lower kws content with
         | Some k =>
             append_to k (record_of cfg original q_lower kws k file_path
                            file_size content) st
         | None => st
         end.
Proof.
  unfold match_content, tier_of.
  destruct (contains q_lower (lower content)); [done|].
  destruct (1 <? Z.of_nat (length kws)); simpl.
  - destruct (check_phrase_proximity_total (lower content) kws) as [b Hb].
    rewrite Hb. destruct b.
    + by rewrite bool_decide_eq_true_2.
    + rewrite bool_decide_eq_false_2 by done.
      by destruct (forallb _ kws).
  - by destruct (forallb _ kws).
Qed.

Section Records.

Variable cfg : config.
Variable exts : list string.
Variables original q_lower : string.
Variable kws : list string.

Abbreviation visit1 := (visit_file cfg exts original q_lower kws).
Abbreviation scan1 := (scan_files cfg exts original q_lower kws).
Abbreviation walk1 := (walk cfg exts original q_lower kws).
Abbreviation produced1 := (produced cfg exts original q_lower kws).

(** A visit either reads a candidate and files the record of its tier, or
    leaves the buckets as they are. *)
Lemma visit_file_outcome root f st :
  (∃ file_size content,
     candidate cfg exts f file_size content ∧
     visit1 root f st =
       match tier_of q_lower kws content with
       | Some k =>
           append_to k (record_of cfg original q_lower kws k
                          (path_join root (name f)) file_size content)
             (count_searched st)
       | None => count_searched st
       end) ∨
  (∀ k, bucket k (visit1 root f st) = bucket k st).
Proof.
  unfold visit_file.
  destruct (has_selected_extension exts (name f)) eqn:Hext; simpl;
    [|by right].
  destruct (getsize f) as [file_size|] eqn:Hsize; [|right; by intros []].
  destruct (MAX_FILE_SIZE cfg <? file_size) eqn:Hmax; [right; by intros []|].
  destruct (file_size =? 0) eqn:Hzero; [by right|].
  destruct (read_text f) as [text|] eqn:Hread; [|right; by intros []].
  left. exists file_size, (read_upto text (MAX_FILE_SIZE cfg)). split.
  - split; [done|]. split; [done|]. split; [lia|]. split; [lia|].
    by exists text.
  - by rewrite match_content_tier.
Qed.

Lemma bucket_append_to k k' r st x :
  x ∈ bucket k (append_to k' r (count_searched st)) →
  x ∈ bucket k st ∨ (k = k' ∧ x = r).
Proof.
  destruct k, k'; simpl; intros Hx; try (by left);
    apply elem_of_app in Hx as [?|Hx%list_elem_of_singleton]; subst; auto.
Qed.

Lemma visit_file_bucket k root f st r :
  r ∈ bucket k (visit1 root f st) →
  r ∈ bucket k st ∨ produced1 k root f r.
Proof.
  destruct (visit_file_outcome root f st)
    as [(file_size & content & Hcand & ->)|Hsame].
  - destruct (tier_of q_lower kws content) as [k'|] eqn:Htier.
    + intros [?|(-> & ->)]%bucket_append_to; [by left|].
      right. by exists file_size, content.
    + destruct k; by left.
  - rewrite Hsame. by left.
Qed.

Lemma scan_files_bucket k root files st r :
  r ∈ bucket k (scan1 root files st) →
  r ∈ bucket k st ∨ ∃ f, f ∈ files ∧ produced1 k root f r.
Proof.
  revert st. induction files as [|f rest IH]; intros st; simpl; [by left|].
  destruct (MAX_FILES_TO_SEARCH cfg <=? files_searched st); [by left|].
  intros [[?|?]%visit_file_bucket|(f' & ? & ?)]%IH.
  - by left.
  - right. exists f. split; [by left|done].
  - right. exists f'. split; [by right|done].
Qed.

(** Every record of a scan was either there before or is the record of a
    candidate file of the tree. *)
Lemma walk_bucket k t st r :
  r ∈ bucket k (walk1 t st) →
  r ∈ bucket k st ∨
  ∃ root files f, (root, files) ∈ t ∧ f ∈ files ∧ produced1 k root f r.
Proof.
  revert st. induction t as [|[root files] rest IH]; intros st; simpl;
    [by left|].
  assert (Hscan : r ∈ bucket k (scan1 root files st) →
                  r ∈ bucket k st ∨
                  ∃ root' files' f,
                    (root', files') ∈ (root, files) :: rest ∧ f ∈ files'
                    ∧ produced1 k root' f r).
  { intros [?|(f & ? & ?)]%scan_files_bucket; [by left|].
    right. exists root, files, f. split; [by left|done]. }
  destruct (MAX_FILES_TO_SEARCH cfg <=? files_searched _); [done|].
  intros [?|(root' & files' & f & ? & ? & ?)]%IH; [by apply Hscan|].
  right. exists root', files', f. split; [by right|done].
Qed.

End Records.

(** *** More on strings *)

Lemma count_from_nonneg sub skip s : 0 <= count_from sub skip s.
Proof.
  revert skip. induction s as [|c s IH]; intros skip.
  - simpl. destruct skip; [|done]. by destruct (is_empty sub).
  - cbn [count_from]. destruct skip as [|k]; [|apply IH].
    destruct (startswith sub (String c s)); [|apply IH].
    pose proof (IH (String.length sub - 1)%nat). lia.
Qed.

(** [s.count(sub)] is zero exactly when [sub in s] is false. *)
Lemma count_contains s sub : contains sub s = true → 1 <= count s sub.
Proof.
  unfold count. induction s as [|c s IH]; cbn [contains count_from].
  - rewrite orb_false_r. by destruct sub.
  - destruct (startswith sub (String c s)).
    + intros _. pose proof (count_from_nonneg sub (String.length sub - 1) s).
      lia.
    + apply IH.
Qed.

Lemma count_not_contains s sub : contains sub s = false → count s sub = 0.
Proof.
  unfold count.
  assert (H : ∀ skip, contains sub s = false → count_from sub skip s = 0).
  { induction s as [|c s IH]; intros skip; cbn [contains count_from].
    - rewrite orb_false_r. destruct sub; [done|]. by destruct skip.
    - intros [Hstart Hrest]%orb_false_iff. rewrite Hstart.
      destruct skip; by apply IH. }
  apply H.
Qed.

Lemma find_from_found sub i s :
  contains sub s = true → i <= find_from sub i s.
Proof.
  revert i. induction s as [|c s IH]; intros i; cbn [contains find_from].
  - rewrite orb_false_r. by intros ->.
  - destruct (startswith sub (String c s)); [lia|].
    intros H. etrans; [|by apply IH]. lia.
Qed.

Lemma find_from_missing sub i s :
  contains sub s = false → find_from sub i s = -1.
Proof.
  revert i. induction s as [|c s IH]; intros i; cbn [contains find_from].
  - rewrite orb_false_r. by intros ->.
  - intros [-> Hrest]%orb_false_iff. by apply IH.
Qed.

Lemma length_take n s :
  String.length (take n s) = Nat.min n (String.length s).
Proof.
  revert s. induction n as [|n IH]; intros [|c s]; simpl; [done..|].
  by rewrite IH.
Qed.

Lemma length_drop n s :
  String.length (drop n s) = (String.length s - n)%nat.
Proof.
  revert s. induction n as [|n IH]; intros [|c s]; simpl; done.
Qed.

(** [len(s[:j])] for a bound that is not negative. *)
Lemma len_slice_to s j : 0 <= j → len (slice_to s j) = Z.min j (len s).
Proof.
  intros Hj. unfold slice_to, slice, clip, len. simpl.
  assert ((j <? 0) = false) as -> by lia.
  replace (0 `min` Z.of_nat (String.length s)) with 0 by lia.
  rewrite Z.sub_0_r, length_take. simpl. lia.
Qed.

Lemma chars_app a b : chars (a +:+ b) = chars a ++ chars b.
Proof. induction a as [|c a IH]; simpl; [done|by rewrite IH]. Qed.

Lemma chars_take n s : chars (take n s) `sublist_of` chars s.
Proof.
  revert s. induction n as [|n IH]; intros [|c s]; simpl;
    try apply sublist_nil_l.
  by apply sublist_skip.
Qed.

Lemma chars_drop n s : chars (drop n s) `sublist_of` chars s.
Proof.
  revert s. induction n as [|n IH]; intros [|c s]; simpl; try done.
  by apply sublist_cons.
Qed.

(** The characters of a slice are characters of the string, in order. *)
Lemma chars_slice s i j : chars (slice s i j) `sublist_of` chars s.
Proof.
  unfold slice. etrans; [apply chars_take|apply chars_drop].
Qed.

Lemma lower_char_lower c : lower_char (lower_char c) = lower_char c.
Proof. destruct c as [[] [] [] [] [] [] [] []]; by vm_compute. Qed.

Lemma isword_lower_char c : isword (lower_char c) = isword c.
Proof. destruct c as [[] [] [] [] [] [] [] []]; by vm_compute. Qed.

Lemma lower_lower s : lower (lower s) = lower s.
Proof.
  induction s as [|c s IH]; simpl; [done|].
  by rewrite lower_char_lower, IH.
Qed.

Lemma lower_snoc s c : lower (snoc s c) = snoc (lower s) (lower_char c).
Proof. unfold snoc. by rewrite lower_app. Qed.

(** *** Records, tiers and scores *)

Lemma total_count_nonneg content_lower kws :
  0 <= total_count content_lower kws.
Proof.
  unfold total_count, count.
  induction kws as [|kw kws IH]; simpl; [done|].
  pose proof (count_from_nonneg kw 0 content_lower). lia.
Qed.

Lemma total_count_all content_lower kws :
  forallb (λ keyword, contains keyword content_lower) kws = true →
  Z.of_nat (length kws) <= total_count content_lower kws.
Proof.
  unfold total_count.
  induction kws as [|kw kws IH]; simpl; [done|].
  intros [Hkw Hrest]%andb_true_iff.
  pose proof (count_contains content_lower kw Hkw).
  pose proof (IH Hrest). lia.
Qed.

Lemma tier_of_exact q_lower kws content :
  tier_of q_lower kws content = Some Exact ↔
  contains q_lower (lower content) = true.
Proof.
  unfold tier_of. destruct (contains q_lower (lower content)); [done|].
  split; [|done]. by repeat case_match.
Qed.

Lemma tier_of_keyword q_lower kws content :
  tier_of q_lower kws content = Some Keyword →
  forallb (λ keyword, contains keyword (lower content)) kws = true.
Proof. unfold tier_of. by repeat case_match. Qed.

Lemma tier_of_phrase q_lower kws content :
  tier_of q_lower kws content = Some Phrase →
  contains q_lower (lower content) = false ∧
  check_phrase_proximity (lower content) kws = Some true.
Proof.
  unfold tier_of. destruct (contains q_lower (lower content)); [done|].
  destruct (1 <? Z.of_nat (length kws)); simpl.
  - case_bool_decide; [done|]. by case_match.
  - by case_match.
Qed.

(** X1. Every record that a scan from the empty state holds in the bucket
    of a tier reports a file of the tree: a file with a selected
    extension, of a size that is not zero and within the limit, that was
    read, and whose content has that tier; the record carries the path of
    the file, its size and the label of the tier. *)
Theorem records_report_candidates
    (cfg : config) (exts : list string) (original q_lower : string)
    (kws : list string) (t : tree) (k : tier) (r : result) :
  r ∈ bucket k (walk cfg exts original q_lower kws t initial_state) →
  ∃ root files f file_size content,
    (root, files) ∈ t ∧ f ∈ files ∧
    candidate cfg exts f file_size content ∧
    tier_of q_lower kws content = Some k ∧
    path r = path_join root (name f) ∧
    size r = file_size ∧
    match_type r = label k.
Proof.
  intros [Hr|(root & files & f & Ht & Hf & file_size & content & Hc & Hk
              & ->)]%walk_bucket.
  - destruct k; by apply elem_of_nil in Hr.
  - by exists root, files, f, file_size, content.
Qed.

Lemma records_report_candidates_witness :
  let t := [("/data", [File "a.txt" (Some 9) (Some "Quick fox")])] in
  ∃ root files f file_size content,
    (root, files) ∈ t ∧ f ∈ files ∧
    candidate default_config [".txt"] f file_size content ∧
    tier_of "quick fox" ["quick"; "fox"] content = Some Exact ∧
    path (record_of default_config "quick fox" "quick fox" ["quick"; "fox"]
            Exact "/data/a.txt" 9 "Quick fox")
      = path_join root (name f) ∧
    size (record_of default_config "quick fox" "quick fox" ["quick"; "fox"]
            Exact "/data/a.txt" 9 "Quick fox") = file_size ∧
    match_type (record_of default_config "quick fox" "quick fox"
                  ["quick"; "fox"] Exact "/data/a.txt" 9 "Quick fox")
      = label Exact.
Proof.
  apply (records_report_candidates default_config [".txt"] "quick fox"
           "quick fox" ["quick"; "fox"]
           [("/data", [File "a.txt" (Some 9) (Some "Quick fox")])] Exact).
  vm_compute. left.
Defined.

(** X2. The relevance of a record tells its tier apart from below: at
    least 1100 in the bucket of exact matches, at least 500 in the bucket
    of phrase matches, and at least 5 for each keyword in the bucket of
    keyword matches. *)
Theorem relevance_of_tiers
    (cfg : config) (exts : list string) (original q_lower : string)
    (kws : list string) (t : tree) (k : tier) (r : result) :
  r ∈ bucket k (walk cfg exts original q_lower kws t initial_state) →
  match k with
  | Exact => 1100
  | Phrase => 500
  | Keyword => 5 * Z.of_nat (length kws)
  end <= relevance r.
Proof.
  intros [Hr|(root & files & f & Ht & Hf & file_size & content & Hc & Hk
              & ->)]%walk_bucket.
  { destruct k; by apply elem_of_nil in Hr. }
  destruct k; cbn [record_of relevance].
  - apply tier_of_exact in Hk.
    pose proof (count_contains _ _ Hk). lia.
  - pose proof (total_count_nonneg (lower content) kws). lia.
  - apply tier_of_keyword in Hk.
    pose proof (total_count_all _ _ Hk). lia.
Qed.

Lemma relevance_of_tiers_witness :
  5 * Z.of_nat (length ["fox"])
  <= relevance (record_of default_config "fox!" "fox!" ["fox"] Keyword
                  "/data/a.txt" 9 "Quick fox").
Proof.
  apply (relevance_of_tiers default_config [".txt"] "fox!" "fox!" ["fox"]
           [("/data", [File "a.txt" (Some 9) (Some "Quick fox")])] Keyword).
  vm_compute. left.
Defined.

(** X3. The matching of a content never raises: the subscripts of
    [check_phrase_proximity] are only reached for keys that are in the
    dictionary, so the check always returns, and the match of a content
    that was read always ends without touching the count of errors. The
    handler of the file is left to the failures of sizing and reading. *)
Theorem matching_never_raises
    (cfg : config) (original q_lower : string) (kws : list string)
    (file_path : string) (file_size : Z) (content : string)
    (st : scan_state) :
  check_phrase_proximity content kws ≠ None ∧
  ∃ st', match_content cfg original q_lower kws file_path file_size content
           st = Some st'
         ∧ files_error st' = files_error st
         ∧ files_searched st' = files_searched st
         ∧ files_skipped st' = files_skipped st.
Proof.
  split.
  - by destruct (check_phrase_proximity_total content kws) as [b ->].
  - rewrite match_content_tier. eexists. split; [done|].
    destruct (tier_of q_lower kws content) as [[]|]; done.
Qed.

(** X4. What the proximity check computes: it answers [True] exactly when
    the keywords are two or more, no keyword is repeated, every keyword
    is a word of the content once the non-word characters are taken out,
    and some occurrence of the first keyword has an occurrence of every
    other keyword at most 50 words away. *)
Theorem check_phrase_proximity_characterised
    (content : string) (kws : list string) :
  check_phrase_proximity content kws = Some true ↔
  NoDup kws ∧ (2 <= length kws)%nat ∧ proximity_phrase content kws.
Proof.
  split.
  - intros Hcheck.
    assert (Hnd : NoDup kws).
    { destruct (decide (NoDup kws)) as [|Hdup]; [done|].
      rewrite check_phrase_proximity_repeated in Hcheck by done. done. }
    assert (Hlen : (2 <= length kws)%nat).
    { unfold check_phrase_proximity in Hcheck.
      destruct (Z.of_nat (length kws) <? 2) eqn:Hlt; [done|lia]. }
    split; [done|]. split; [done|].
    by apply check_phrase_proximity_distinct.
  - intros (Hnd & Hlen & Hprox). by apply check_phrase_proximity_distinct.
Qed.

Lemma pieces_occurs sep cur s w :
  w ∈ pieces sep cur s → occurs_in w (cur +:+ s).
Proof.
  revert cur. induction s as [|c s IH]; intros cur; cbn [pieces].
  - destruct (is_empty cur); [by intros ?%elem_of_nil|].
    intros ->%list_elem_of_singleton. by exists EmptyString, EmptyString.
  - assert (Hsnoc : cur +:+ String c s = snoc cur c +:+ s)
      by (unfold snoc; by rewrite app_assoc_str).
    assert (Hrest : w ∈ pieces sep EmptyString s →
                    occurs_in w (cur +:+ String c s)).
    { intros (pre & post & Heq)%IH. simpl in Heq.
      exists (snoc cur c +:+ pre), post.
      by rewrite Hsnoc, app_assoc_str, <- Heq. }
    destruct (sep c).
    + destruct (is_empty cur); [done|].
      intros [->|?]%elem_of_cons; [|by apply Hrest].
      by exists EmptyString, (String c s).
    + rewrite Hsnoc. apply IH.
Qed.

(** Every keyword is a contiguous part of the lower-cased text. *)
Lemma keywords_of_occur s kw :
  kw ∈ keywords_of s → occurs_in kw (lower s).
Proof.
  unfold keywords_of, findall_words.
  intros (w & -> & Hw)%list_elem_of_fmap.
  apply list_elem_of_filter in Hw as [_ Hw].
  apply occurs_in_lower. by apply pieces_occurs in Hw.
Qed.

(** X5. The tiers are nested as far as the exact tier goes: for an ASCII
    query, whose keywords are pieces of the lower-cased query, a content
    that holds the query holds every keyword of the query, so an exact
    match passes the test of the keyword tier as well; and for any query
    a content that holds every keyword has a tier. *)
Theorem exact_holds_all_keywords (query content : string) :
  (isascii query = true →
   tier_of (query_lower query) (keywords query) content = Some Exact →
   forallb (λ keyword, contains keyword (lower content)) (keywords query)
     = true) ∧
  (forallb (λ keyword, contains keyword (lower content)) (keywords query)
     = true →
   tier_of (query_lower query) (keywords query) content ≠ None).
Proof.
  split.
  - intros _ Hexact%tier_of_exact%contains_spec.
    apply forallb_forall. intros kw Hkw%list_elem_of_In.
    apply contains_spec. eapply occurs_in_trans; [|exact Hexact].
    by apply keywords_of_occur.
  - intros Hall. unfold tier_of. rewrite Hall. by repeat case_match.
Qed.

Lemma exact_holds_all_keywords_witness :
  forallb (λ keyword, contains keyword (lower "The Quick  Fox"))
    (keywords " quick  fox ") = true ∧
  tier_of (query_lower "fox, quick") (keywords "fox, quick")
    "The Quick  Fox" ≠ None.
Proof.
  split.
  - apply (proj1 (exact_holds_all_keywords " quick  fox "
                    "The Quick  Fox")); reflexivity.
  - apply (proj2 (exact_holds_all_keywords "fox, quick" "The Quick  Fox")).
    reflexivity.
Defined.

(** X6. A query that is one word and nothing else has only exact matches:
    its keyword is the lower-cased query itself, so that a content that
    is no exact match fails the test of the keyword tier too, and the
    proximity check is not made for a single keyword. *)
Theorem one_word_query_only_exact
    (cfg : config) (exts : list string) (query : string) (t : tree) :
  keywords query = [query_lower query] →
  let st := walk cfg exts (original_query query) (query_lower query)
              (keywords query) t initial_state in
  phrase_matches st = [] ∧ keyword_matches st = [].
Proof.
  intros Hone. cbv zeta. rewrite Hone.
  split; apply elem_of_nil_inv; intros r Hr.
  - apply (walk_bucket _ _ _ _ _ Phrase) in Hr
      as [Hr|(root & files & f & _ & _ & sz & content & _ & Hk & _)];
      [by apply elem_of_nil in Hr|].
    by apply tier_of_phrase in Hk as [_ Hk].
  - apply (walk_bucket _ _ _ _ _ Keyword) in Hr
      as [Hr|(root & files & f & _ & _ & sz & content & _ & Hk & _)];
      [by apply elem_of_nil in Hr|].
    pose proof (tier_of_keyword _ _ _ Hk) as Hall. simpl in Hall.
    rewrite andb_true_r in Hall.
    apply (proj2 (tier_of_exact _ [query_lower query] _)) in Hall.
    rewrite Hall in Hk. done.
Qed.

Lemma one_word_query_only_exact_witness :
  let st := walk default_config [".txt"] (original_query " Fox ")
              (query_lower " Fox ") (keywords " Fox ")
              [("/data", [File "a.txt" (Some 9) (Some "Quick fox")])]
              initial_state in
  phrase_matches st = [] ∧ keyword_matches st = [].
Proof.
  apply (one_word_query_only_exact default_config [".txt"] " Fox "
           [("/data", [File "a.txt" (Some 9) (Some "Quick fox")])]).
  reflexivity.
Defined.

(** *** The counters of a scan *)

Lemma how_many_cons test f files :
  how_many test (f :: files)
  = (if test f then 1 else 0) + how_many test files.
Proof. unfold how_many. simpl. destruct (test f); simpl; lia. Qed.

Lemma how_many_app test files1 files2 :
  how_many test (files1 ++ files2)
  = how_many test files1 + how_many test files2.
Proof.
  unfold how_many. rewrite List.filter_app, length_app. lia.
Qed.

Lemma how_many_nonneg test files : 0 <= how_many test files.
Proof. unfold how_many. lia. Qed.

Lemma count_files_shift exts files file_count :
  count_files exts files file_count
  = file_count + how_many (λ f, has_selected_extension exts (name f)) files.
Proof.
  revert file_count. induction files as [|f rest IH]; intros file_count.
  - unfold how_many. simpl. lia.
  - cbn [count_files]. rewrite IH, how_many_cons.
    destruct (has_selected_extension exts (name f)); lia.
Qed.

(** [check_directory] counts the files of the tree that have a selected
    extension. *)
Lemma count_tree_shift exts t file_count :
  count_tree exts t file_count
  = file_count
    + how_many (λ f, has_selected_extension exts (name f)) (files_of t).
Proof.
  revert file_count. induction t as [|[root files] rest IH];
    intros file_count.
  - unfold how_many. simpl. lia.
  - cbn [count_tree]. rewrite IH, count_files_shift.
    unfold files_of. cbn [map snd List.concat]. rewrite how_many_app. lia.
Qed.

Section Counters.

Variable cfg : config.
Variable exts : list string.
Variables original q_lower : string.
Variable kws : list string.

Abbreviation visit2 := (visit_file cfg exts original q_lower kws).
Abbreviation scan2 := (scan_files cfg exts original q_lower kws).
Abbreviation walk2 := (walk cfg exts original q_lower kws).

(** What one visit adds to the three counters. *)
Lemma visit_file_counters root f st :
  files_searched (visit2 root f st)
    = files_searched st + (if searchable cfg exts f then 1 else 0) ∧
  files_skipped (visit2 root f st)
    = files_skipped st + (if oversize cfg exts f then 1 else 0) ∧
  files_error (visit2 root f st)
    = files_error st + (if unreadable cfg exts f then 1 else 0).
Proof.
  unfold visit_file, unreadable, searchable, oversize.
  destruct (has_selected_extension exts (name f)); simpl; [|lia].
  destruct (getsize f) as [file_size|]; simpl; [|lia].
  destruct (MAX_FILE_SIZE cfg <? file_size); simpl; [lia|].
  destruct (file_size =? 0); simpl; [lia|].
  destruct (read_text f) as [text|]; simpl; [|lia].
  rewrite match_content_tier.
  destruct (tier_of q_lower kws _) as [[]|]; simpl; lia.
Qed.

Lemma scan_files_counters root files st :
  files_searched (scan2 root files st) < MAX_FILES_TO_SEARCH cfg →
  files_searched (scan2 root files st)
    = files_searched st + how_many (searchable cfg exts) files ∧
  files_skipped (scan2 root files st)
    = files_skipped st + how_many (oversize cfg exts) files ∧
  files_error (scan2 root files st)
    = files_error st + how_many (unreadable cfg exts) files.
Proof.
  revert st. induction files as [|f rest IH]; intros st; cbn [scan_files].
  - unfold how_many. simpl. lia.
  - destruct (MAX_FILES_TO_SEARCH cfg <=? files_searched st) eqn:Hcap;
      [lia|].
    intros Hlt. destruct (IH _ Hlt) as (-> & -> & ->).
    destruct (visit_file_counters root f st) as (-> & -> & ->).
    rewrite !how_many_cons. lia.
Qed.

Lemma walk_counters t st :
  files_searched (walk2 t st) < MAX_FILES_TO_SEARCH cfg →
  files_searched (walk2 t st)
    = files_searched st + how_many (searchable cfg exts) (files_of t) ∧
  files_skipped (walk2 t st)
    = files_skipped st + how_many (oversize cfg exts) (files_of t) ∧
  files_error (walk2 t st)
    = files_error st + how_many (unreadable cfg exts) (files_of t).
Proof.
  revert st. induction t as [|[root files] rest IH]; intros st; cbn [walk].
  - unfold how_many. simpl. lia.
  - destruct (MAX_FILES_TO_SEARCH cfg
              <=? files_searched (scan2 root files st)) eqn:Hcap; [lia|].
    intros Hlt. destruct (IH _ Hlt) as (-> & -> & ->).
    destruct (scan_files_counters root files st) as (-> & -> & ->); [lia|].
    unfold files_of. cbn [map snd List.concat]. rewrite !how_many_app. lia.
Qed.

(** With or without the cap, searched and skipped files are files with a
    selected extension, each counted once. *)
Lemma scan_files_within root files st :
  files_searched st + files_skipped st
  <= files_searched (scan2 root files st)
     + files_skipped (scan2 root files st)
  <= files_searched st + files_skipped st
     + how_many (λ f, has_selected_extension exts (name f)) files.
Proof.
  revert st. induction files as [|f rest IH]; intros st; cbn [scan_files].
  - unfold how_many. simpl. lia.
  - rewrite how_many_cons.
    pose proof (how_many_nonneg
                  (λ f, has_selected_extension exts (name f)) rest).
    destruct (MAX_FILES_TO_SEARCH cfg <=? files_searched st).
    { destruct (has_selected_extension exts (name f)); lia. }
    specialize (IH (visit2 root f st)).
    destruct (visit_file_counters root f st) as (Hs & Hk & _).
    rewrite Hs, Hk in IH. clear Hs Hk.
    unfold searchable, oversize in IH.
    destruct (has_selected_extension exts (name f)); simpl in IH; [|lia].
    destruct (getsize f) as [sz|]; [|lia].
    destruct (MAX_FILE_SIZE cfg <? sz); simpl in IH; [lia|].
    destruct (sz =? 0); simpl in IH; lia.
Qed.

Lemma walk_within t st :
  files_searched st + files_skipped st
  <= files_searched (walk2 t st) + files_skipped (walk2 t st)
  <= files_searched st + files_skipped st + count_tree exts t 0.
Proof.
  rewrite count_tree_shift, Z.add_0_l.
  revert st. induction t as [|[root files] rest IH]; intros st; cbn [walk].
  - unfold how_many. simpl. lia.
  - unfold files_of. cbn [map snd List.concat]. rewrite how_many_app.
    fold (files_of rest).
    pose proof (scan_files_within root files st).
    pose proof (how_many_nonneg
                  (λ f, has_selected_extension exts (name f))
                  (files_of rest)).
    destruct (MAX_FILES_TO_SEARCH cfg
              <=? files_searched (scan2 root files st)); [lia|].
    specialize (IH (scan2 root files st)). lia.
Qed.

End Counters.

(** X7. The counters of a scan that ends below the cap say what happened
    to every file of the tree: [files_searched] is the number of files
    with a selected extension and a size that is not zero and within the
    limit, [files_skipped] the number of those above the limit, and
    [files_error] the number of those whose sizing raised or that were
    counted as searched and whose reading raised. A file of zero bytes or
    without a selected extension is in none of them. *)
Theorem counters_of_complete_scan
    (cfg : config) (exts : list string) (original q_lower : string)
    (kws : list string) (t : tree) :
  let st := walk cfg exts original q_lower kws t initial_state in
  files_searched st < MAX_FILES_TO_SEARCH cfg →
  files_searched st = how_many (searchable cfg exts) (files_of t) ∧
  files_skipped st = how_many (oversize cfg exts) (files_of t) ∧
  files_error st = how_many (unreadable cfg exts) (files_of t).
Proof.
  cbv zeta. intros Hlt.
  destruct (walk_counters cfg exts original q_lower kws t initial_state Hlt)
    as (-> & -> & ->).
  done.
Qed.

Lemma counters_of_complete_scan_witness :
  let t := [("/data", [File "a.txt" (Some 9) (Some "quick fox");
                       File "b.txt" (Some 99999999) (Some "fox");
                       File "c.txt" None (Some "fox");
                       File "d.txt" (Some 3) None;
                       File "e.txt" (Some 0) (Some "");
                       File "f.bin" (Some 3) (Some "fox")])] in
  let st := walk default_config [".txt"] "fox" "fox" ["fox"] t
              initial_state in
  files_searched st = 2 ∧ files_skipped st = 1 ∧ files_error st = 2.
Proof.
  apply (counters_of_complete_scan default_config [".txt"] "fox" "fox"
           ["fox"]
           [("/data", [File "a.txt" (Some 9) (Some "quick fox");
                       File "b.txt" (Some 99999999) (Some "fox");
                       File "c.txt" None (Some "fox");
                       File "d.txt" (Some 3) None;
                       File "e.txt" (Some 0) (Some "");
                       File "f.bin" (Some 3) (Some "fox")])]).
  reflexivity.
Defined.

(** X8. When [check_directory] accepts the directory, the directory field
    is not blank, the stripped path exists and some extension is
    selected; the status line announces the number of files of the tree
    with a selected extension; and a search in that tree never reports
    more files, searched and skipped together, than were announced. *)
Theorem check_directory_bounds_search
    (cfg : config) (dir_var : string) (path_exists : string → bool)
    (os_walk : string → tree) (exts : list string)
    (status directory original q_lower : string) (kws : list string) :
  check_directory dir_var path_exists os_walk exts
    = (status, Some directory) →
  let found :=
    how_many (λ f, has_selected_extension exts (name f))
      (files_of (os_walk directory)) in
  let st := walk cfg exts original q_lower kws (os_walk directory)
              initial_state in
  directory = strip dir_var ∧ directory ≠ EmptyString ∧
  path_exists directory = true ∧ exts ≠ [] ∧
  status = "Ready - Found " +:+ str found +:+ " searchable files" ∧
  0 <= files_searched st + files_skipped st <= found.
Proof.
  unfold check_directory. cbv zeta.
  destruct (strip dir_var) as [|c d] eqn:Hdir; [done|]. cbn [is_empty].
  destruct (path_exists (String c d)) eqn:Hex; [|done]. cbn [negb].
  destruct exts as [|ext exts']; [done|].
  intros [= <- <-].
  rewrite count_tree_shift, Z.add_0_l.
  repeat (split; [done|]).
  pose proof (walk_within cfg (ext :: exts') original q_lower kws
                (os_walk (String c d)) initial_state) as H.
  rewrite count_tree_shift in H. simpl in H. simpl. lia.
Qed.

Lemma check_directory_bounds_search_witness :
  let os_walk := λ _ : string,
    [("/data", [File "a.txt" (Some 9) (Some "quick fox");
                File "b.TXT" (Some 99999999) (Some "fox");
                File "f.bin" (Some 3) (Some "fox")])] in
  let st := walk default_config [".txt"] "fox" "fox" ["fox"]
              (os_walk "/data") initial_state in
  "/data" = strip " /data " ∧ "/data" ≠ EmptyString ∧
  true = true ∧ [".txt"] ≠ [] ∧
  "Ready - Found 2 searchable files"
    = "Ready - Found " +:+ str 2 +:+ " searchable files" ∧
  0 <= files_searched st + files_skipped st <= 2.
Proof.
  apply (check_directory_bounds_search default_config " /data "
           (λ _, true)
           (λ _, [("/data", [File "a.txt" (Some 9) (Some "quick fox");
                             File "b.TXT" (Some 99999999) (Some "fox");
                             File "f.bin" (Some 3) (Some "fox")])])
           [".txt"] "Ready - Found 2 searchable files" "/data"
           "fox" "fox" ["fox"]).
  reflexivity.
Defined.

(** X9. A scan only adds: from any state, each bucket at the end starts
    with the bucket as it was, and no counter is lower than it was. *)
Theorem scan_only_adds
    (cfg : config) (exts : list string) (original q_lower : string)
    (kws : list string) (t : tree) (st : scan_state) :
  let st' := walk cfg exts original q_lower kws t st in
  (∀ k, bucket k st `prefix_of` bucket k st') ∧
  files_searched st <= files_searched st' ∧
  files_skipped st <= files_skipped st' ∧
  files_error st <= files_error st'.
Proof.
  cbv zeta.
  apply (walk_invariant cfg exts original q_lower kws
           (λ st', (∀ k, bucket k st `prefix_of` bucket k st') ∧
                   files_searched st <= files_searched st' ∧
                   files_skipped st <= files_skipped st' ∧
                   files_error st <= files_error st')); [|done].
  intros root f st1 _ (Hpre & Hs & Hk & He).
  destruct (visit_file_counters cfg exts original q_lower kws root f st1)
    as (-> & -> & ->).
  split.
  - intros k. etrans; [apply Hpre|].
    destruct (visit_file_outcome cfg exts original q_lower kws root f st1)
      as [(file_size & content & _ & ->)|Hsame].
    + destruct (tier_of q_lower kws content) as [k'|]; [|by destruct k].
      destruct k, k'; simpl; done || by apply prefix_app_r.
    + by rewrite Hsame.
  - repeat case_match; lia.
Qed.

(** *** Names, extensions and paths *)

Lemma endswith_spec p s : endswith p s = true ↔ ∃ pre, s = pre +:+ p.
Proof.
  induction s as [|c s IH]; cbn [endswith].
  - rewrite orb_false_r, String.eqb_eq. split.
    + intros ->. by exists EmptyString.
    + intros [[|c pre] Heq]; simpl in Heq; [done|done].
  - rewrite orb_true_iff, String.eqb_eq, IH. split.
    + intros [->|[pre ->]]; [by exists EmptyString|by exists (String c pre)].
    + intros [[|c' pre] Heq]; simpl in Heq; [by left|].
      injection Heq as -> ->. right. by exists pre.
Qed.

Lemma existsb_fmap {A B} (g : A → B) (test : B → bool) (l : list A) :
  existsb test (map g l) = existsb (λ x, test (g x)) l.
Proof. induction l as [|x l IH]; simpl; [done|by rewrite IH]. Qed.

Lemma scan_files_no_extension cfg original q_lower kws root files st :
  scan_files cfg [] original q_lower kws root files st = st.
Proof.
  revert st. induction files as [|f rest IH]; intros st; simpl; [done|].
  destruct (MAX_FILES_TO_SEARCH cfg <=? files_searched st); [done|].
  apply IH.
Qed.

(** X10. The test of the extension ignores the letter case of the file
    name and of the selected extensions: a name passes exactly when, in
    lower case, it ends with a selected extension in lower case. With no
    extension selected a scan leaves the state as it is. *)
Theorem extension_test
    (cfg : config) (exts : list string) (file_name : string)
    (original q_lower : string) (kws : list string) (t : tree)
    (st : scan_state) :
  (has_selected_extension exts file_name = true ↔
   ∃ ext stem, ext ∈ exts ∧ lower file_name = stem +:+ lower ext) ∧
  has_selected_extension exts (lower file_name)
    = has_selected_extension exts file_name ∧
  has_selected_extension (map lower exts) file_name
    = has_selected_extension exts file_name ∧
  walk cfg [] original q_lower kws t st = st.
Proof.
  unfold has_selected_extension. split; [|split; [|split]].
  - rewrite existsb_exists. split.
    + intros (ext & Hext%list_elem_of_In & [stem Hstem]%endswith_spec).
      by exists ext, stem.
    + intros (ext & stem & Hext%list_elem_of_In & Hstem).
      exists ext. split; [done|]. apply endswith_spec. by exists stem.
  - by rewrite lower_lower.
  - rewrite existsb_fmap. induction exts as [|ext exts' IH]; simpl; [done|].
    by rewrite lower_lower, IH.
  - induction t as [|[root files] rest IH]; simpl; [done|].
    rewrite scan_files_no_extension.
    by destruct (MAX_FILES_TO_SEARCH cfg <=? files_searched st).
Qed.

Lemma basename_from_plain cur s :
  SEP ∉ chars s → basename_from cur s = cur +:+ s.
Proof.
  revert cur. induction s as [|c s IH]; intros cur Hs; simpl.
  - by rewrite app_empty_r.
  - simpl in Hs. apply not_elem_of_cons in Hs as [Hc Hs].
    destruct (Ascii.eqb c SEP) eqn:Heq.
    { apply Ascii.eqb_eq in Heq. by subst. }
    rewrite IH by done. unfold snoc. by rewrite app_assoc_str.
Qed.

Lemma basename_from_sep cur a b :
  basename_from cur (a +:+ String SEP b) = basename_from EmptyString b.
Proof.
  revert cur. induction a as [|c a IH]; intros cur; simpl.
  - done.
  - destruct (Ascii.eqb c SEP); apply IH.
Qed.

(** X11. Joining a directory and a file name and taking the base name
    gives the file name back, provided the name holds no separator, as
    the names of a directory listing do. *)
Theorem basename_path_join (root file_name : string) :
  SEP ∉ chars file_name →
  basename (path_join root file_name) = file_name.
Proof.
  intros Hname. unfold basename, path_join.
  destruct (is_empty root) eqn:Hroot; simpl.
  - destruct root; [|done]. by rewrite basename_from_plain.
  - destruct (endswith (String SEP EmptyString) root) eqn:Hend.
    + apply endswith_spec in Hend as [pre ->].
      rewrite app_assoc_str. simpl.
      by rewrite basename_from_sep, basename_from_plain.
    + by rewrite basename_from_sep, basename_from_plain.
Qed.

Lemma basename_path_join_witness :
  basename (path_join "/data/run 1/" "a.b.txt") = "a.b.txt" ∧
  basename (path_join "/data/run 1" "a.b.txt") = "a.b.txt".
Proof.
  split.
  - apply (basename_path_join "/data/run 1/" "a.b.txt").
    by apply (bool_decide_unpack _).
  - apply (basename_path_join "/data/run 1" "a.b.txt").
    by apply (bool_decide_unpack _).
Defined.

(** *** More on the tokenizer *)

Lemma chars_snoc s c : chars (snoc s c) = chars s ++ [c].
Proof. unfold snoc. by rewrite chars_app. Qed.

Lemma pieces_chars sep cur s w :
  Forall (λ c, sep c = false) (chars cur) →
  w ∈ pieces sep cur s →
  w ≠ EmptyString ∧ Forall (λ c, sep c = false) (chars w).
Proof.
  revert cur. induction s as [|c s IH]; intros cur Hcur; cbn [pieces].
  - destruct cur as [|c' cur']; [by intros ?%elem_of_nil|].
    by intros ->%list_elem_of_singleton.
  - destruct (sep c) eqn:Hc.
    + destruct cur as [|c' cur']; cbn [is_empty].
      * apply IH. constructor.
      * intros [->|?]%elem_of_cons; [done|]. apply (IH EmptyString); [|done].
        constructor.
    + apply IH. rewrite chars_snoc. apply Forall_app. split; [done|].
      by constructor.
Qed.

Lemma chars_lower s : chars (lower s) = map lower_char (chars s).
Proof. induction s as [|c s IH]; simpl; [done|by rewrite IH]. Qed.

(** X12. Every keyword of an ASCII query has at least 2 characters, all
    of them word characters, and is in lower case. *)
Theorem keywords_well_formed (query keyword : string) :
  isascii query = true →
  keyword ∈ keywords query →
  2 <= len keyword ∧
  Forall (λ c, isword c = true) (chars keyword) ∧
  lower keyword = keyword.
Proof.
  unfold keywords, keywords_of, findall_words.
  intros _ (w & -> & Hw)%list_elem_of_fmap.
  apply list_elem_of_filter in Hw as [Hlen Hw].
  apply pieces_chars in Hw as [_ Hw]; [|constructor].
  split; [rewrite len_lower; lia|]. split; [|apply lower_lower].
  rewrite chars_lower, Forall_fmap.
  eapply Forall_impl; [exact Hw|]. simpl. intros c Hc.
  rewrite isword_lower_char. by destruct (isword c).
Qed.

Lemma keywords_well_formed_witness :
  2 <= len "x_1" ∧
  Forall (λ c, isword c = true) (chars "x_1") ∧
  lower "x_1" = "x_1".
Proof.
  apply (keywords_well_formed " A, X_1! (b) " "x_1").
  - reflexivity.
  - by apply (bool_decide_unpack _).
Defined.

Lemma isspace_lower_char c : isspace (lower_char c) = isspace c.
Proof. destruct c as [[] [] [] [] [] [] [] []]; by vm_compute. Qed.

Lemma is_empty_lower s : is_empty (lower s) = is_empty s.
Proof. by destruct s. Qed.

Lemma lstrip_lower s : lstrip (lower s) = lower (lstrip s).
Proof.
  induction s as [|c s IH]; simpl; [done|].
  rewrite isspace_lower_char. by destruct (isspace c).
Qed.

Lemma rstrip_lower s : rstrip (lower s) = lower (rstrip s).
Proof.
  induction s as [|c s IH]; simpl; [done|].
  rewrite isspace_lower_char, IH, is_empty_lower.
  by destruct (isspace c && is_empty (rstrip s)).
Qed.

Lemma strip_lower s : strip (lower s) = lower (strip s).
Proof. unfold strip. by rewrite lstrip_lower, rstrip_lower. Qed.

Lemma pieces_lower cur s :
  let sep := λ c, negb (isword c) in
  pieces sep (lower cur) (lower s) = map lower (pieces sep cur s).
Proof.
  simpl. revert cur. induction s as [|c s IH]; intros cur; cbn [lower pieces].
  - rewrite is_empty_lower. by destruct (is_empty cur).
  - rewrite isword_lower_char, is_empty_lower.
    destruct (negb (isword c)).
    + change EmptyString with (lower EmptyString) at 1 2.
      rewrite IH. by destruct (is_empty cur).
    + by rewrite <- lower_snoc, IH.
Qed.

Lemma filter_len_lower (n : Z) (l : list string) :
  filter (λ w, n < len w) (map lower l)
  = map lower (filter (λ w, n < len w) l).
Proof.
  induction l as [|w l IH]; [done|].
  cbn [map]. rewrite !filter_cons, len_lower, IH.
  by case_decide.
Qed.

Lemma keywords_of_lower s : keywords_of (lower s) = keywords_of s.
Proof.
  unfold keywords_of, findall_words.
  change EmptyString with (lower EmptyString) at 1.
  rewrite pieces_lower.
  rewrite filter_len_lower.
  rewrite <- list_fmap_compose. apply list_fmap_ext.
  intros _ w _. simpl. apply lower_lower.
Qed.

(** The keywords depend on the query up to letter case only. *)
Lemma keywords_same_lower q1 q2 :
  lower q1 = lower q2 → keywords q1 = keywords q2.
Proof.
  intros Heq. rewrite !keywords_keywords_of.
  by rewrite <- (keywords_of_lower q1), <- (keywords_of_lower q2), Heq.
Qed.

Lemma query_lower_same_lower q1 q2 :
  lower q1 = lower q2 → query_lower q1 = query_lower q2.
Proof.
  intros Heq. unfold query_lower, original_query.
  by rewrite <- !strip_lower, Heq.
Qed.

Lemma get_snippet_for_phrase_same_lower cfg content p1 p2 :
  lower p1 = lower p2 →
  get_snippet_for_phrase cfg content p1 = get_snippet_for_phrase cfg content p2.
Proof.
  intros Heq. unfold get_snippet_for_phrase.
  by rewrite <- (len_lower p1), <- (len_lower p2), Heq.
Qed.

Lemma visit_file_same_lower cfg exts o1 o2 q_lower kws root f st :
  lower o1 = lower o2 →
  visit_file cfg exts o1 q_lower kws root f st
  = visit_file cfg exts o2 q_lower kws root f st.
Proof.
  intros Heq. unfold visit_file, match_content.
  destruct (negb (has_selected_extension exts (name f))); [done|].
  destruct (getsize f) as [file_size|]; [|done].
  destruct (MAX_FILE_SIZE cfg <? file_size); [done|].
  destruct (file_size =? 0); [done|].
  destruct (read_text f) as [text|]; [|done].
  by rewrite (get_snippet_for_phrase_same_lower cfg _ o1 o2 Heq).
Qed.

Lemma scan_files_same_lower cfg exts o1 o2 q_lower kws root files st :
  lower o1 = lower o2 →
  scan_files cfg exts o1 q_lower kws root files st
  = scan_files cfg exts o2 q_lower kws root files st.
Proof.
  intros Heq. revert st. induction files as [|f rest IH]; intros st; simpl;
    [done|].
  destruct (MAX_FILES_TO_SEARCH cfg <=? files_searched st); [done|].
  by rewrite (visit_file_same_lower cfg exts o1 o2 _ _ _ _ _ Heq), IH.
Qed.

Lemma walk_same_lower cfg exts o1 o2 q_lower kws t st :
  lower o1 = lower o2 →
  walk cfg exts o1 q_lower kws t st = walk cfg exts o2 q_lower kws t st.
Proof.
  intros Heq. revert st. induction t as [|[root files] rest IH]; intros st;
    simpl; [done|].
  rewrite (scan_files_same_lower cfg exts o1 o2 _ _ _ _ _ Heq).
  destruct (MAX_FILES_TO_SEARCH cfg <=? files_searched _); [done|].
  apply IH.
Qed.

(** X13. A search does not depend on the letter case of an ASCII query:
    two ASCII queries that agree once in lower case have the same
    keywords and the same lower-cased query, and the scan of any tree
    ends in the same state for both, with the same records, scores and
    snippets. Only the echo of the query in the header of the report
    differs. *)
Theorem query_case_ignored
    (cfg : config) (exts : list string) (q1 q2 : string) (t : tree)
    (st : scan_state) :
  isascii q1 = true → isascii q2 = true →
  lower q1 = lower q2 →
  keywords q1 = keywords q2 ∧
  query_lower q1 = query_lower q2 ∧
  walk cfg exts (original_query q1) (query_lower q1) (keywords q1) t st
  = walk cfg exts (original_query q2) (query_lower q2) (keywords q2) t st.
Proof.
  intros _ _ Heq.
  pose proof (keywords_same_lower q1 q2 Heq) as Hk.
  pose proof (query_lower_same_lower q1 q2 Heq) as Hq.
  split; [done|]. split; [done|].
  rewrite Hk, Hq. apply walk_same_lower. exact Hq.
Qed.

Lemma query_case_ignored_witness :
  let t := [("/data", [File "a.txt" (Some 9) (Some "Quick fox")])] in
  keywords "QUICK Fox" = keywords "quick fox" ∧
  query_lower "QUICK Fox" = query_lower "quick fox" ∧
  walk default_config [".txt"] (original_query "QUICK Fox")
    (query_lower "QUICK Fox") (keywords "QUICK Fox") t initial_state
  = walk default_config [".txt"] (original_query "quick fox")
      (query_lower "quick fox") (keywords "quick fox") t initial_state.
Proof.
  apply (query_case_ignored default_config [".txt"] "QUICK Fox" "quick fox"
           [("/data", [File "a.txt" (Some 9) (Some "Quick fox")])]
           initial_state); reflexivity.
Defined.

Lemma filter_sublist_weaker {A} (P Q : A → Prop) `{∀ x, Decision (P x)}
    `{∀ x, Decision (Q x)} (l : list A) :
  (∀ x, P x → Q x) → filter P l `sublist_of` filter Q l.
Proof.
  intros HPQ. induction l as [|x l IH]; [done|].
  rewrite !filter_cons. destruct (decide (P x)) as [HP|HP].
  - rewrite decide_True by auto. by apply sublist_skip.
  - destruct (decide (Q x)); [by apply sublist_cons|done].
Qed.

(** X14. The keywords of the plain search are keywords of the tiered
    search, in the same order; for an ASCII query, whose words keep their
    length in lower case, the plain search leaves out the keywords of two
    characters and keeps the rest. It asks for search terms when no word
    has three characters, where the tiered search may still run. *)
Theorem safe_keywords_among_keywords (query : string) :
  Safe.keywords query `sublist_of` keywords query ∧
  (isascii query = true →
   Safe.keywords query
     = filter (λ keyword, len keyword ≠ 2) (keywords query)).
Proof.
  rewrite keywords_keywords_of. unfold Safe.keywords, keywords_of.
  split.
  - apply fmap_sublist, filter_sublist_weaker. intros w ?. lia.
  - intros _. induction (findall_words query) as [|w l IH]; [done|].
    rewrite !filter_cons. cbn [map].
    destruct (decide (2 < len w)); destruct (decide (1 < len w)); try lia.
    + cbn [map]. rewrite filter_cons, len_lower, decide_True by lia.
      by rewrite IH.
    + cbn [map]. rewrite filter_cons, len_lower, decide_False by lia.
      by rewrite IH.
    + by rewrite IH.
Qed.

Lemma safe_keywords_among_keywords_witness :
  Safe.keywords "An old fox, ok" `sublist_of` keywords "An old fox, ok" ∧
  Safe.keywords "An old fox, ok"
    = filter (λ keyword, len keyword ≠ 2) (keywords "An old fox, ok").
Proof.
  destruct (safe_keywords_among_keywords "An old fox, ok") as [Hsub Heq].
  split; [exact Hsub|]. apply Heq. reflexivity.
Defined.

(** *** Snippets *)

Lemma len_window cfg content pos width :
  0 <= MAX_SNIPPET_LENGTH cfg →
  len (window cfg content pos width) <= MAX_SNIPPET_LENGTH cfg.
Proof. intros Hmax. unfold window. cbv zeta. rewrite len_slice_to; lia. Qed.

Lemma len_cut s n : 0 <= n → len (slice_to s n +:+ "...") <= n + 3.
Proof.
  intros Hn. rewrite len_app, len_slice_to by done.
  change (len "...") with 3. lia.
Qed.

(** The snippet of a phrase: within the limit when the phrase occurs in
    the content, at most 3 characters above it otherwise. *)
Lemma len_get_snippet_for_phrase cfg content phrase :
  0 <= MAX_SNIPPET_LENGTH cfg →
  len (get_snippet_for_phrase cfg content phrase)
    <= MAX_SNIPPET_LENGTH cfg + 3 ∧
  (contains (lower phrase) (lower content) = true →
   get_snippet_for_phrase cfg content phrase
     = window cfg content (find (lower content) (lower phrase))
         (len phrase) ∧
   len (get_snippet_for_phrase cfg content phrase)
     <= MAX_SNIPPET_LENGTH cfg).
Proof.
  intros Hmax. unfold get_snippet_for_phrase. cbv zeta. split.
  - destruct (find (lower content) (lower phrase) =? -1).
    + by apply len_cut.
    + pose proof (len_window cfg content
                    (find (lower content) (lower phrase)) (len phrase) Hmax).
      lia.
  - intros Hin. pose proof (find_from_found _ 0 _ Hin) as Hpos.
    unfold find.
    assert ((find_from (lower phrase) 0 (lower content) =? -1) = false)
      as -> by lia.
    split; [done|]. by apply len_window.
Qed.

Lemma first_keyword_context_bound cfg content kws context :
  0 <= MAX_SNIPPET_LENGTH cfg →
  first_keyword_context cfg content kws = Some context →
  len context <= MAX_SNIPPET_LENGTH cfg.
Proof.
  intros Hmax. induction kws as [|kw kws IH]; simpl; [done|].
  destruct (negb (find (lower content) kw =? -1)); [|done].
  intros [= <-]. by apply len_window.
Qed.

Lemma first_keyword_context_found cfg content kws :
  existsb (λ keyword, contains keyword (lower content)) kws = true →
  is_Some (first_keyword_context cfg content kws).
Proof.
  induction kws as [|kw kws IH]; simpl; [done|].
  destruct (contains kw (lower content)) eqn:Hkw; simpl.
  - intros _. pose proof (find_from_found _ 0 _ Hkw). unfold find.
    assert ((find_from kw 0 (lower content) =? -1) = false) as -> by lia.
    by eexists.
  - intros Hrest. unfold find. rewrite (find_from_missing _ _ _ Hkw).
    simpl. by apply IH.
Qed.

(** The snippet for keywords: within the limit when some keyword occurs
    in the content, at most 3 characters above it otherwise. *)
Lemma len_get_snippet_for_keywords cfg content kws :
  3 <= MAX_SNIPPET_LENGTH cfg →
  len (get_snippet_for_keywords cfg content kws)
    <= MAX_SNIPPET_LENGTH cfg + 3 ∧
  (existsb (λ keyword, contains keyword (lower content)) kws = true →
   len (get_snippet_for_keywords cfg content kws)
     <= MAX_SNIPPET_LENGTH cfg).
Proof.
  intros Hmax. unfold get_snippet_for_keywords. cbv zeta.
  destruct (negb (is_empty (fst (best_of kws _ _)))).
  - destruct (MAX_SNIPPET_LENGTH cfg <? len (fst (best_of kws _ _)))
      eqn:Hlong.
    + pose proof (len_cut (fst (best_of kws
                    (re_split sentence_sep content) (EmptyString, 0)))
                    (MAX_SNIPPET_LENGTH cfg - 3)).
      split; [lia|]. intros _. lia.
    + split; [lia|]. intros _. lia.
  - destruct (first_keyword_context cfg content kws) as [context|] eqn:Hc.
    + pose proof (first_keyword_context_bound cfg content kws context
                    ltac:(lia) Hc).
      split; [lia|]. intros _. lia.
    + split; [apply len_cut; lia|].
      intros [? ?]%(first_keyword_context_found cfg). congruence.
Qed.

(** X15. With a limit of at least 3 characters, the snippet of every
    record of a search is within [MAX_SNIPPET_LENGTH] in the buckets of
    exact and of keyword matches, and at most 3 characters longer in the
    bucket of phrase matches, where the keywords may occur as words
    without occurring as contiguous text. *)
Theorem snippet_lengths
    (cfg : config) (exts : list string) (query : string) (t : tree)
    (k : tier) (r : result) :
  3 <= MAX_SNIPPET_LENGTH cfg →
  keywords query ≠ [] →
  r ∈ bucket k (walk cfg exts (original_query query) (query_lower query)
                  (keywords query) t initial_state) →
  len (snippet r)
  <= MAX_SNIPPET_LENGTH cfg + match k with Phrase => 3 | _ => 0 end.
Proof.
  intros Hmax Hkws
    [Hr|(root & files & f & _ & _ & file_size & content & _ & Hk & ->)]
      %walk_bucket.
  { destruct k; by apply elem_of_nil in Hr. }
  destruct k; cbn [record_of snippet].
  - apply tier_of_exact in Hk.
    destruct (len_get_snippet_for_phrase cfg content (original_query query))
      as [_ Hfound]; [lia|].
    destruct (Hfound Hk) as [_ Hlen]. lia.
  - destruct (len_get_snippet_for_keywords cfg content (keywords query)
                Hmax) as [Hlen _]. lia.
  - apply tier_of_keyword in Hk.
    destruct (len_get_snippet_for_keywords cfg content (keywords query)
                Hmax) as [_ Hlen].
    rewrite Z.add_0_r. apply Hlen.
    destruct (keywords query) as [|kw kws]; [done|].
    simpl in Hk |- *. apply andb_true_iff in Hk as [-> _]. done.
Qed.

Lemma snippet_lengths_witness :
  len (snippet (record_of default_config "quick fox" "quick fox"
                  ["quick"; "fox"] Exact "/data/a.txt" 20
                  "The Quick fox jumps.")) <= 200 + 0.
Proof.
  apply (snippet_lengths default_config [".txt"] "quick fox"
           [("/data", [File "a.txt" (Some 20)
                         (Some "The Quick fox jumps.")])] Exact).
  - simpl. lia.
  - discriminate.
  - vm_compute. left.
Defined.

Lemma only_blanks_app a b :
  only_blanks a → only_blanks b → only_blanks (a +:+ b).
Proof.
  unfold only_blanks. rewrite chars_app, Forall_app. by split.
Qed.

Lemma Forall_sublist_of {A} (P : A → Prop) (l1 l2 : list A) :
  l1 `sublist_of` l2 → Forall P l2 → Forall P l1.
Proof.
  induction 1 as [|x l1 l2 _ IH|x l1 l2 _ IH]; [done|..].
  - intros [? ?]%Forall_cons. constructor; auto.
  - intros [? ?]%Forall_cons. auto.
Qed.

Lemma only_blanks_slice s i j : only_blanks s → only_blanks (slice s i j).
Proof. apply Forall_sublist_of, chars_slice. Qed.

Lemma only_blanks_join l :
  Forall (λ w, Forall (λ c, isspace c = false) (chars w)) l →
  only_blanks (join " " l).
Proof.
  induction 1 as [|w l Hw Hl IH]; [constructor|].
  assert (Hword : only_blanks w).
  { eapply Forall_impl; [exact Hw|]. simpl. intros c Hc. by rewrite Hc. }
  cbn [join]. destruct l as [|w' l']; [done|].
  apply only_blanks_app; [done|].
  apply only_blanks_app; [|done]. by repeat constructor.
Qed.

(** Joining the words of a text with blanks leaves no other white space. *)
Lemma only_blanks_join_split s : only_blanks (join " " (split s)).
Proof.
  apply only_blanks_join, Forall_forall. intros w Hw.
  unfold split in Hw. by apply pieces_chars in Hw as [_ Hw]; [|constructor].
Qed.

Lemma only_blanks_window cfg content pos width :
  only_blanks (window cfg content pos width).
Proof.
  unfold window. cbv zeta. apply only_blanks_slice.
  assert (Hdots : only_blanks "...")
    by (repeat constructor; by vm_compute).
  assert (Hcore : only_blanks
            (if 0 <? 0 `max` (pos - 50)
             then "..." +:+ join " "
                    (split (slice content (0 `max` (pos - 50))
                              (len content `min` (pos + width + 50))))
             else join " "
                    (split (slice content (0 `max` (pos - 50))
                              (len content `min` (pos + width + 50)))))).
  { destruct (0 <? 0 `max` (pos - 50)).
    - apply only_blanks_app; [done|apply only_blanks_join_split].
    - apply only_blanks_join_split. }
  destruct (len content `min` (pos + width + 50) <? len content); [|done].
  by apply only_blanks_app.
Qed.

(** X16. The snippet of an exact match is one line: whatever line breaks,
    tabs and runs of blanks the content has around the phrase, the only
    white space left in the snippet is the single blank. *)
Theorem exact_snippet_one_line
    (cfg : config) (exts : list string) (query : string) (t : tree)
    (r : result) :
  0 <= MAX_SNIPPET_LENGTH cfg →
  r ∈ exact_matches (walk cfg exts (original_query query)
                       (query_lower query) (keywords query) t
                       initial_state) →
  only_blanks (snippet r).
Proof.
  intros Hmax Hr. apply (walk_bucket _ _ _ _ _ Exact) in Hr
    as [Hr|(root & files & f & _ & _ & file_size & content & _ & Hk & ->)].
  { by apply elem_of_nil in Hr. }
  apply tier_of_exact in Hk. cbn [record_of snippet].
  destruct (len_get_snippet_for_phrase cfg content (original_query query)
              Hmax) as [_ Hfound].
  destruct (Hfound Hk) as [-> _]. apply only_blanks_window.
Qed.

Lemma exact_snippet_one_line_witness :
  only_blanks
    (snippet (record_of default_config "quick fox" "quick fox"
                ["quick"; "fox"] Exact "/data/a.txt" 21
                ("A line." +:+ NL +:+ "Quick fox" +:+ NL +:+ "end"))).
Proof.
  apply (exact_snippet_one_line default_config [".txt"] "quick fox"
           [("/data", [File "a.txt" (Some 21)
                         (Some ("A line." +:+ NL +:+ "Quick fox" +:+ NL
                                +:+ "end"))])]).
  - simpl. lia.
  - vm_compute. left.
Defined.

(** *** More on the report *)

Lemma len_concat_nonneg l : 0 <= len (concat l).
Proof. unfold len. lia. Qed.

(** When all the results fit, the loop commits every one of them. *)
Lemma render_results_all cfg results :
  ∀ i rs,
    displayed_count rs + Z.of_nat (length results)
      <= MAX_RESULTS_DISPLAY cfg →
    current_length rs + len (concat (entry_texts i results))
      <= MAX_TOTAL_RESPONSE_LENGTH cfg →
    render_results cfg i results rs =
      {| response_parts := response_parts rs ++ entry_texts i results;
         current_length :=
           current_length rs + len (concat (entry_texts i results));
         displayed_count :=
           displayed_count rs + Z.of_nat (length results) |}.
Proof.
  induction results as [|r results IH]; intros i rs Hshow Hfit.
  - destruct rs. cbn [render_results entry_texts concat length].
    cbn [response_parts current_length displayed_count].
    rewrite app_nil_r. f_equal; unfold len; simpl; lia.
  - cbn [render_results entry_texts concat length] in *.
    rewrite len_app in Hfit.
    pose proof (len_concat_nonneg (entry_texts (i + 1) results)).
    assert ((MAX_RESULTS_DISPLAY cfg <=? displayed_count rs) = false)
      as -> by lia.
    assert ((MAX_TOTAL_RESPONSE_LENGTH cfg
             <? current_length rs + len (result_text i r)) = false)
      as -> by lia.
    rewrite IH; cbn [response_parts current_length displayed_count];
      [|lia..].
    rewrite len_app, <- app_assoc. f_equal; cbn [app]; lia.
Qed.

(** X17. When there are results, no more of them than
    [MAX_RESULTS_DISPLAY], and the header with all their entries is
    within [MAX_TOTAL_RESPONSE_LENGTH], the report is the header followed
    by the entry of every result in order, numbered from 1, with no
    marker and no note after them. *)
Theorem all_results_rendered
    (cfg : config) (results : list result) (searched skipped : Z)
    (query : string) (exact phrase keyword : list result) :
  let header :=
    header_text searched skipped query (Z.of_nat (length exact))
      (Z.of_nat (length phrase)) (Z.of_nat (length keyword))
      (Z.of_nat (length results)) in
  results ≠ [] →
  Z.of_nat (length results) <= MAX_RESULTS_DISPLAY cfg →
  len header + len (concat (entry_texts 1 results))
    <= MAX_TOTAL_RESPONSE_LENGTH cfg →
  format_prioritized_results cfg results searched skipped query
    exact phrase keyword
  = header +:+ concat (entry_texts 1 results).
Proof.
  cbv zeta. intros Hne Hshow Hfit. unfold format_prioritized_results.
  set (header := header_text searched skipped query _ _ _ _) in *.
  clearbody header.
  destruct results as [|r0 results0] eqn:Hres; [done|].
  rewrite <- Hres in *. clear Hres Hne.
  rewrite render_results_all;
    cbn [response_parts current_length displayed_count]; [|lia..].
  assert ((0 + Z.of_nat (length results) <? Z.of_nat (length results))
          = false) as -> by lia.
  rewrite concat_app. cbn [concat]. by rewrite app_empty_r.
Qed.

Lemma all_results_rendered_witness :
  let r := record_of default_config "fox" "fox" ["fox"] Exact "/data/a.txt"
             9 "Quick fox" in
  format_prioritized_results default_config [r] 1 0 "fox" [r] [] []
  = header_text 1 0 "fox" 1 0 0 1 +:+ concat (entry_texts 1 [r]).
Proof.
  apply (all_results_rendered default_config
           [record_of default_config "fox" "fox" ["fox"] Exact
              "/data/a.txt" 9 "Quick fox"]
           1 0 "fox"
           [record_of default_config "fox" "fox" ["fox"] Exact
              "/data/a.txt" 9 "Quick fox"] [] []).
  - discriminate.
  - simpl. lia.
  - by vm_compute.
Defined.

Lemma render_results_limit cfg results :
  ∀ i rs,
    displayed_count (render_results cfg i results rs)
    <= Z.max (displayed_count rs) (MAX_RESULTS_DISPLAY cfg).
Proof.
  induction results as [|r results IH]; intros i rs; cbn [render_results];
    [lia|].
  destruct (MAX_RESULTS_DISPLAY cfg <=? displayed_count rs) eqn:Hshow;
    [lia|].
  destruct (MAX_TOTAL_RESPONSE_LENGTH cfg <? _); [simpl; lia|].
  etrans; [apply IH|]. simpl. lia.
Qed.

(** X18. The report never shows more than [MAX_RESULTS_DISPLAY] entries.
    It is the header, the entries of the first results, at most that
    many, and then nothing else than this: the block of suggestions when
    there are no results; the truncation marker when the entry of the
    next result did not fit the budget; and the note with the number of
    the results left out when some are left out. When results are left
    out and every entry so far fitted the budget, the entries shown are
    as many as [MAX_RESULTS_DISPLAY] allows. *)
Theorem display_limit
    (cfg : config) (results : list result) (searched skipped : Z)
    (query : string) (exact phrase keyword : list result) :
  let n_exact := Z.of_nat (length exact) in
  let header :=
    header_text searched skipped query n_exact (Z.of_nat (length phrase))
      (Z.of_nat (length keyword)) (Z.of_nat (length results)) in
  ∃ shown rest (budget : bool),
    results = shown ++ rest ∧
    Z.of_nat (length shown) <= Z.max 0 (MAX_RESULTS_DISPLAY cfg) ∧
    format_prioritized_results cfg results searched skipped query
      exact phrase keyword
    = header +:+ concat (entry_texts 1 shown)
      +:+ (if budget then truncated_text else EmptyString)
      +:+ match results, rest with
          | [], _ => no_results_text
          | _ :: _, [] => EmptyString
          | _ :: _, _ :: _ => summary_text (Z.of_nat (length rest)) n_exact
          end ∧
    (if budget
     then ∃ r rest',
            rest = r :: rest' ∧
            MAX_TOTAL_RESPONSE_LENGTH cfg
            < len (header +:+ concat (entry_texts 1 shown))
              + len (result_text (1 + Z.of_nat (length shown)) r)
     else rest ≠ [] → MAX_RESULTS_DISPLAY cfg <= Z.of_nat (length shown)).
Proof.
  cbv zeta. unfold format_prioritized_results.
  set (header := header_text searched skipped query _ _ _ _).
  clearbody header.
  destruct results as [|r0 results0] eqn:Hres.
  { exists [], [], false. split; [done|]. split; [simpl; lia|].
    cbn [response_parts app concat entry_texts].
    rewrite !app_empty_r. split; [reflexivity|done]. }
  rewrite <- Hres.
  assert (Hne : results ≠ []) by (by rewrite Hres).
  pose proof (render_results_limit cfg results 1
                {| response_parts := [header]; current_length := len header;
                   displayed_count := 0 |}) as Hlimit.
  destruct (render_results_spec cfg results 1
              {| response_parts := [header]; current_length := len header;
                 displayed_count := 0 |})
    as (shown & rest & budget & Hshown & Hparts & Hlen & Hcount & _ & Hend).
  cbn [response_parts current_length displayed_count] in *.
  rewrite Hcount in Hlimit.
  assert (Hrest : Z.of_nat (length results)
                  = Z.of_nat (length shown) + Z.of_nat (length rest))
    by (rewrite Hshown, length_app; lia).
  exists shown, rest, budget.
  split; [done|]. split; [lia|].
  rewrite Hcount, Hparts. split.
  - replace (Z.of_nat (length results) - (0 + Z.of_nat (length shown)))
      with (Z.of_nat (length rest)) by lia.
    destruct results as [|r1 results1]; [done|].
    destruct rest as [|r rest'].
    + assert ((0 + Z.of_nat (length shown)
               <? Z.of_nat (length (r1 :: results1))) = false)
        as -> by (apply Z.ltb_ge; cbn [length] in Hrest |- *; lia).
      rewrite !concat_app. destruct budget; cbn [concat app];
        by rewrite !app_empty_r.
    + assert ((0 + Z.of_nat (length shown)
               <? Z.of_nat (length (r1 :: results1))) = true)
        as -> by (apply Z.ltb_lt; cbn [length] in Hrest |- *; lia).
      rewrite <- !app_assoc, !concat_app. destruct budget; cbn [concat app];
        by rewrite !app_empty_r.
  - destruct budget.
    + destruct Hend as (r & rest' & -> & Hover).
      exists r, rest'. split; [done|].
      rewrite len_app, <- Hlen. exact Hover.
    + intros Hmore. destruct Hend as [?|Hshow]; [done|]. lia.
Qed.

(** *** Messages *)

Lemma take_app_length a b : take (String.length a) (a +:+ b) = a.
Proof. induction a as [|c a IH]; simpl; [by destruct b|by rewrite IH]. Qed.

Lemma take_min n s : take (Nat.min n (String.length s)) s = take n s.
Proof.
  revert s. induction n as [|n IH]; intros [|c s]; simpl; [done..|].
  by rewrite IH.
Qed.

Lemma slice_to_take s j : 0 <= j → slice_to s j = take (Z.to_nat j) s.
Proof.
  intros Hj. unfold slice_to, slice, clip, len. simpl.
  assert ((j <? 0) = false) as -> by lia.
  replace (0 `min` Z.of_nat (String.length s)) with 0 by lia.
  rewrite Z.sub_0_r. simpl.
  replace (Z.to_nat (j `min` Z.of_nat (String.length s)))
    with (Nat.min (Z.to_nat j) (String.length s)) by lia.
  apply take_min.
Qed.

Lemma slice_to_cut s sfx j :
  0 <= j <= len s →
  slice_to (slice_to s j +:+ sfx) j = slice_to s j.
Proof.
  intros Hj. rewrite !slice_to_take by lia.
  assert (Hlen : String.length (take (Z.to_nat j) s) = Z.to_nat j).
  { rewrite length_take. unfold len in Hj. lia. }
  rewrite <- Hlen at 1. apply take_app_length.
Qed.

Lemma rstrip_rstrip s : rstrip (rstrip s) = rstrip s.
Proof.
  induction s as [|c s IH]; [done|]. cbn [rstrip].
  destruct (isspace c && is_empty (rstrip s)) eqn:Hc; [done|].
  cbn [rstrip]. by rewrite IH, Hc.
Qed.

Lemma lstrip_head s :
  lstrip s = EmptyString ∨
  ∃ c r, lstrip s = String c r ∧ isspace c = false.
Proof.
  induction s as [|c s IH]; simpl; [by left|].
  destruct (isspace c) eqn:Hc; [done|]. right. by exists c, s.
Qed.

(** Stripping twice is stripping once. *)
Lemma strip_strip s : strip (strip s) = strip s.
Proof.
  unfold strip. destruct (lstrip_head s) as [->|(c & r & -> & Hc)]; [done|].
  cbn [rstrip]. rewrite Hc. cbn [andb lstrip]. rewrite Hc.
  cbn [rstrip]. by rewrite Hc, rstrip_rstrip.
Qed.

(** X19. What [add_message] puts on display is never longer than 100031
    characters, whatever the length of the message; a message of at most
    100000 characters is displayed as it is, and the first 100000
    characters of a longer one are. So the answer to a sent message, the
    report of a search included, is within that length. *)
Theorem message_display_limit
    (message : string) (cfg : config) (searching : bool)
    (input_var dir_var : string) (path_exists : string → bool)
    (os_walk : string → tree) (exts : list string) (text : string) :
  len (add_message_text message) <= 100031 ∧
  slice_to (add_message_text message) 100000 = slice_to message 100000 ∧
  (len message <= 100000 → add_message_text message = message) ∧
  (answer cfg searching input_var dir_var path_exists os_walk exts
     = Some text →
   len text <= 100031).
Proof.
  assert (Hlimit : ∀ m, len (add_message_text m) <= 100031).
  { intros m. unfold add_message_text.
    destruct (100000 <? len m) eqn:Hlong; [|lia].
    rewrite len_app, len_slice_to by lia.
    change (len (NL +:+ NL +:+ "Message truncated for display")) with 31.
    lia. }
  split; [apply Hlimit|]. split; [|split].
  - unfold add_message_text.
    destruct (100000 <? len message) eqn:Hlong; [|done].
    apply slice_to_cut. lia.
  - intros Hshort. unfold add_message_text.
    by assert ((100000 <? len message) = false) as -> by lia.
  - unfold answer. destruct (send_message _ _ _ _ _ _); [done|..];
      intros [= <-]; apply Hlimit.
Qed.

Lemma message_display_limit_witness :
  add_message_text "Chatbot Ready!" = "Chatbot Ready!" ∧
  len (add_message_text
         (delivered (search_files default_config [".txt"] [] "fox")))
    <= 100031.
Proof.
  pose proof (message_display_limit "Chatbot Ready!" default_config false
                "fox" "/data" (λ _, true) (λ _, []) [".txt"]
                (add_message_text
                   (delivered (search_files default_config [".txt"] []
                                 "fox"))))
    as (_ & _ & Hshort & Hanswer).
  split.
  - apply Hshort. by vm_compute.
  - apply Hanswer. reflexivity.
Defined.

(** X20. A search starts only when none is running, the input is not
    blank, and the directory check passed. The query it is started with
    is the stripped input, which is not empty and which [search_files]
    leaves as it is when it strips the query again; the directory is the
    stripped directory field, it exists, and some extension is selected.
    The query may still have no keyword. *)
Theorem message_starts_search
    (searching : bool) (input_var dir_var : string)
    (path_exists : string → bool) (os_walk : string → tree)
    (exts : list string) (base_dir query : string) :
  send_message searching input_var dir_var path_exists os_walk exts
    = Started base_dir query →
  searching = false ∧
  query = strip input_var ∧ query ≠ EmptyString ∧
  original_query query = query ∧
  base_dir = strip dir_var ∧ path_exists base_dir = true ∧ exts ≠ [].
Proof.
  unfold send_message, check_directory. cbv zeta.
  destruct searching; [done|].
  destruct (strip input_var) as [|c q] eqn:Hq; [done|]. cbn [is_empty].
  destruct (strip dir_var) as [|c' d] eqn:Hd; [done|]. cbn [is_empty].
  destruct (path_exists (String c' d)) eqn:Hex; [|done]. cbn [negb].
  destruct exts as [|ext exts']; [done|]. cbn [snd].
  intros [= <- <-]. repeat (split; [done|]).
  split; [|done]. unfold original_query. by rewrite <- Hq, strip_strip.
Qed.

Lemma message_starts_search_witness :
  false = false ∧
  "quick fox" = strip "  quick fox " ∧ "quick fox" ≠ EmptyString ∧
  original_query "quick fox" = "quick fox" ∧
  "/data" = strip "/data " ∧ true = true ∧ [".txt"] ≠ [].
Proof.
  apply (message_starts_search false "  quick fox " "/data " (λ _, true)
           (λ _, []) [".txt"] "/data" "quick fox").
  reflexivity.
Defined.

(** ** Further properties of the plain search *)

Lemma safe_visit_file_step exts kws root f rs n :
  let st' := Safe.visit_file exts kws root f (rs, n) in
  snd st'
    = (if has_selected_extension exts (name f) then n + 1 else n) ∧
  ∃ extra,
    fst st' = rs ++ extra ∧
    map Safe.path extra `sublist_of` [path_join root (name f)] ∧
    Z.of_nat (length extra) <= snd st' - n.
Proof.
  unfold Safe.visit_file. cbv zeta.
  destruct (has_selected_extension exts (name f)); cbn [negb fst snd].
  2: { split; [done|]. exists []. rewrite app_nil_r. split; [done|].
       split; [apply sublist_nil_l|simpl; lia]. }
  assert (Hnone : ∃ extra : list Safe.result,
            rs = rs ++ extra ∧
            map Safe.path extra `sublist_of` [path_join root (name f)] ∧
            Z.of_nat (length extra) <= n + 1 - n).
  { exists []. rewrite app_nil_r. split; [done|].
    split; [apply sublist_nil_l|simpl; lia]. }
  destruct (read_text f) as [text|]; [|by split].
  destruct (forallb _ kws); [|by split].
  destruct (getsize f) as [file_size|]; [|by split].
  split; [done|]. eexists [_]. split; [done|]. split; [done|simpl; lia].
Qed.

Lemma safe_scan_step exts kws root files :
  ∀ rs n,
    let st' := foldl (λ st f, Safe.visit_file exts kws root f st) (rs, n)
                 files in
    snd st' = count_files exts files n ∧
    ∃ extra,
      fst st' = rs ++ extra ∧
      map Safe.path extra
        `sublist_of` map (λ f, path_join root (name f)) files ∧
      Z.of_nat (length extra) <= snd st' - n.
Proof.
  induction files as [|f rest IH]; intros rs n; cbn [foldl count_files map].
  - split; [done|]. exists []. rewrite app_nil_r. split; [done|].
    split; [done|simpl; lia].
  - destruct (safe_visit_file_step exts kws root f rs n)
      as (Hn & extra1 & Hrs & Hsub1 & Hlen1).
    destruct (Safe.visit_file exts kws root f (rs, n)) as [rs1 n1].
    cbn [fst snd] in *. subst rs1.
    destruct (IH (rs ++ extra1) n1) as (Hn' & extra2 & Hrs' & Hsub2 & Hlen2).
    split; [by rewrite Hn', Hn|].
    exists (extra1 ++ extra2). split; [by rewrite Hrs', <- app_assoc|].
    split.
    + rewrite map_app.
      change (path_join root (name f)
              :: map (λ f0, path_join root (name f0)) rest)
        with ([path_join root (name f)]
              ++ map (λ f0, path_join root (name f0)) rest).
      by apply sublist_app.
    + rewrite length_app.
      assert (n <= n1) by (destruct (has_selected_extension _ _); lia).
      lia.
Qed.

Lemma safe_walk_step exts kws t :
  ∀ rs n,
    let st' := Safe.walk exts kws t (rs, n) in
    snd st' = count_tree exts t n ∧
    ∃ extra,
      fst st' = rs ++ extra ∧
      map Safe.path extra `sublist_of` tree_paths t ∧
      Z.of_nat (length extra) <= snd st' - n.
Proof.
  unfold Safe.walk.
  induction t as [|[root files] rest IH]; intros rs n;
    cbn [foldl count_tree fst snd].
  - split; [done|]. exists []. rewrite app_nil_r. split; [done|].
    split; [done|simpl; lia].
  - destruct (safe_scan_step exts kws root files rs n)
      as (Hn & extra1 & Hrs & Hsub1 & Hlen1).
    destruct (foldl _ (rs, n) files) as [rs1 n1].
    cbn [fst snd] in *. subst rs1.
    destruct (IH (rs ++ extra1) n1) as (Hn' & extra2 & Hrs' & Hsub2 & Hlen2).
    split; [by rewrite Hn', Hn|].
    exists (extra1 ++ extra2). split; [by rewrite Hrs', <- app_assoc|].
    split.
    + rewrite map_app. unfold tree_paths. cbn [map List.concat fst snd].
      by apply sublist_app.
    + rewrite length_app.
      assert (n <= n1) by (rewrite Hn, count_files_shift;
                           pose proof (how_many_nonneg
                             (λ f, has_selected_extension exts (name f))
                             files); lia).
      lia.
Qed.

(** X21. The plain search counts as searched every file of the tree with
    a selected extension, readable or not, which is the number that
    [check_directory] announces; the files it reports are files of the
    tree, in the order of the walk and each at most once, and never more
    than it counted. *)
Theorem safe_search_counts
    (exts : list string) (t : tree) (query : string)
    (results : list Safe.result) (n : Z) :
  Safe.search_files exts t query = Some (results, n) →
  n = count_tree exts t 0 ∧
  map Safe.path results `sublist_of` tree_paths t ∧
  Z.of_nat (length results) <= n.
Proof.
  unfold Safe.search_files.
  destruct (Safe.keywords query) as [|kw kws]; [done|].
  destruct (safe_walk_step exts (kw :: kws) t [] 0)
    as (Hn & extra & Hrs & Hsub & Hlen).
  intros [= Hwalk]. rewrite Hwalk in *. cbn [fst snd] in *.
  subst. simpl. split; [done|]. split; [done|]. lia.
Qed.

Lemma safe_search_counts_witness :
  let t := [("/data", [File "a.txt" (Some 9) (Some "Quick fox");
                       File "b.txt" (Some 3) None;
                       File "c.bin" (Some 3) (Some "fox")])] in
  2 = count_tree [".txt"] t 0 ∧
  map Safe.path [Safe.Result "/data/a.txt" "a.txt" "quick fox..." 9]
    `sublist_of` tree_paths t ∧
  Z.of_nat (length [Safe.Result "/data/a.txt" "a.txt" "quick fox..." 9])
    <= 2.
Proof.
  apply (safe_search_counts [".txt"]
           [("/data", [File "a.txt" (Some 9) (Some "Quick fox");
                       File "b.txt" (Some 3) None;
                       File "c.bin" (Some 3) (Some "fox")])] "fox").
  reflexivity.
Defined.

(** X22. The snippet of the plain search has at most 203 characters: 200
    of a sentence or of the content, and the three dots. *)
Theorem safe_snippet_length (content : string) (kws : list string) :
  len (Safe.get_snippet content kws) <= 203.
Proof.
  unfold Safe.get_snippet.
  assert (Hcut : ∀ s, len (slice_to s 200 +:+ "...") <= 203)
    by (intros s; pose proof (len_cut s 200); lia).
  destruct (Safe.first_sentence kws _) as [s|] eqn:Hs; [|apply Hcut].
  revert Hs. generalize (re_split Safe.sentence_sep content).
  induction l as [|sentence rest IH]; simpl; [done|].
  destruct (existsb _ kws); [|done]. intros [= <-]. apply Hcut.
Qed.

(** ** The best sentence and the header *)

(** The loop over the sentences keeps a pair whose score is the greatest
    met so far; the pair is the one it started with or comes from a
    sentence that is not blank. *)
Lemma best_of_spec kws sentences :
  ∀ best,
    let best' := best_of kws sentences best in
    snd best <= snd best' ∧
    (∀ s, s ∈ sentences → strip s ≠ EmptyString →
          sentence_score kws (strip s) <= snd best') ∧
    (best' = best ∨
     ∃ s, s ∈ sentences ∧ strip s ≠ EmptyString ∧
          snd best < sentence_score kws (strip s) ∧
          best' = (strip s, sentence_score kws (strip s))).
Proof.
  induction sentences as [|s rest IH]; intros best; cbn [best_of].
  - split; [lia|]. split; [by intros s ?%elem_of_nil|by left].
  - cbv zeta. destruct (is_empty (strip s)) eqn:Hempty.
    { destruct (IH best) as (Hle & Hmax & Hfrom). split; [done|]. split.
      - intros s' [->|?]%elem_of_cons ?; [by destruct (strip s)|auto].
      - destruct Hfrom as [?|(s' & ? & ? & ? & ?)]; [by left|].
        right. exists s'. split; [by right|done]. }
    assert (Hne : strip s ≠ EmptyString) by (by destruct (strip s)).
    destruct (snd best <? sentence_score kws (strip s)) eqn:Hlt.
    + destruct (IH (strip s, sentence_score kws (strip s)))
        as (Hle & Hmax & Hfrom). cbn [snd] in *.
      split; [lia|]. split.
      * intros s' [->|?]%elem_of_cons ?; [lia|auto].
      * right. destruct Hfrom as [->|(s' & ? & ? & ? & ->)].
        -- exists s. split; [by left|]. split; [done|]. split; [lia|done].
        -- exists s'. split; [by right|]. split; [done|]. split; [lia|done].
    + destruct (IH best) as (Hle & Hmax & Hfrom). split; [done|]. split.
      * intros s' [->|?]%elem_of_cons ?; [lia|auto].
      * destruct Hfrom as [?|(s' & ? & ? & ? & ?)]; [by left|].
        right. exists s'. split; [by right|done].
Qed.

(** X23. When some sentence of the content is not blank and holds a
    keyword, the snippet for keywords is taken from a sentence that holds
    the greatest number of keywords: it is that sentence stripped, or its
    first [MAX_SNIPPET_LENGTH - 3] characters and three dots when the
    sentence is longer than the limit. Sentences end at the characters
    [.], [!], [?] and at line breaks. *)
Theorem snippet_from_best_sentence
    (cfg : config) (content : string) (kws : list string) (s0 : string) :
  let sentences := re_split sentence_sep content in
  s0 ∈ sentences → strip s0 ≠ EmptyString →
  0 < sentence_score kws (strip s0) →
  ∃ s, s ∈ sentences ∧ strip s ≠ EmptyString ∧
       (∀ s', s' ∈ sentences → strip s' ≠ EmptyString →
              sentence_score kws (strip s')
              <= sentence_score kws (strip s)) ∧
       get_snippet_for_keywords cfg content kws
       = if MAX_SNIPPET_LENGTH cfg <? len (strip s)
         then slice_to (strip s) (MAX_SNIPPET_LENGTH cfg - 3) +:+ "..."
         else strip s.
Proof.
  cbv zeta. intros Hs0 Hne0 Hscore.
  destruct (best_of_spec kws (re_split sentence_sep content)
              (EmptyString, 0)) as (_ & Hmax & Hfrom).
  unfold get_snippet_for_keywords. cbv zeta.
  destruct Hfrom as [Heq|(s & Hs & Hne & _ & Heq)].
  - pose proof (Hmax s0 Hs0 Hne0) as Hle. rewrite Heq in Hle.
    simpl in Hle. lia.
  - exists s. split; [done|]. split; [done|]. rewrite Heq in *.
    cbn [fst snd] in *. split; [done|].
    by destruct (strip s).
Qed.

Lemma snippet_from_best_sentence_witness :
  let content := "Hello there. The quick brown fox! A quick one" in
  let kws := ["quick"; "fox"] in
  let sentences := re_split sentence_sep content in
  ∃ s, s ∈ sentences ∧ strip s ≠ EmptyString ∧
       (∀ s', s' ∈ sentences → strip s' ≠ EmptyString →
              sentence_score kws (strip s')
              <= sentence_score kws (strip s)) ∧
       get_snippet_for_keywords default_config content kws
       = if MAX_SNIPPET_LENGTH default_config <? len (strip s)
         then slice_to (strip s) (MAX_SNIPPET_LENGTH default_config - 3)
              +:+ "..."
         else strip s.
Proof.
  apply (snippet_from_best_sentence default_config
           "Hello there. The quick brown fox! A quick one"
           ["quick"; "fox"] " A quick one").
  - by apply (bool_decide_unpack _).
  - discriminate.
  - by vm_compute.
Defined.



